(** * convert-services.py: export-to-object converter

    A shallow embedding of [convert_service_file] and [main] of
    [convert-services.py], together with the part of Python's [re] and
    [str] that the script calls.

    Texts are lists of characters.  Characters are 8-bit code points
    (the Latin-1 range of Python's [str]); the two character classes the
    script relies on, [str.isspace] / [\s] and [\w], are CPython's tables
    on that range. *)

From Stdlib Require Import Ascii String List Arith Bool Lia.
From stdpp Require Import gmap strings list.
Import ListNotations.

Local Open Scope list_scope.
Local Open Scope nat_scope.

(** ** Texts *)

Abbreviation text := (list ascii).

(** A string literal as a text. *)
Definition str (s : string) : text := list_ascii_of_string s.

Definition NL : ascii := "010"%char.

(** [str.isspace] on one character, also the class [\s] of [re]:
    U+0009..U+000D, U+001C..U+0020, U+0085 and U+00A0. *)
Definition isspace (c : ascii) : bool :=
  let n := nat_of_ascii c in
  ((9 <=? n) && (n <=? 13)) || ((28 <=? n) && (n <=? 32))
  || (n =? 133) || (n =? 160).

(** The class [\w] of [re] for [str] patterns: alphanumeric characters
    (letters, decimal digits and the other numeric characters of the
    Unicode database) and the underscore. *)
Definition isword (c : ascii) : bool :=
  let n := nat_of_ascii c in
  ((48 <=? n) && (n <=? 57)) || ((65 <=? n) && (n <=? 90)) || (n =? 95)
  || ((97 <=? n) && (n <=? 122))
  || (n =? 170) || (n =? 178) || (n =? 179) || (n =? 181)
  || (n =? 185) || (n =? 186) || ((188 <=? n) && (n <=? 190))
  || ((192 <=? n) && (n <=? 214)) || ((216 <=? n) && (n <=? 246))
  || (248 <=? n).

(** [s.startswith(p)] *)
Fixpoint startswith (p s : text) : bool :=
  match p, s with
  | [], _ => true
  | _ :: _, [] => false
  | a :: p', b :: s' => Ascii.eqb a b && startswith p' s'
  end.

(** [s.lstrip()], [s.rstrip()] and [s.strip()] without argument. *)
Fixpoint lstrip (s : text) : text :=
  match s with
  | c :: s' => if isspace c then lstrip s' else s
  | [] => []
  end.

Definition rstrip (s : text) : text := rev (lstrip (rev s)).

Definition strip (s : text) : text := lstrip (rstrip s).

(** Truth value of a [str]: non-empty. *)
Definition truthy (s : text) : bool :=
  match s with [] => false | _ :: _ => true end.

(** [s.split('\n')]: never empty, one more piece than there are
    newlines. *)
Fixpoint split_nl (s : text) : list text :=
  match s with
  | [] => [[]]
  | c :: s' =>
      if Ascii.eqb c NL then [] :: split_nl s'
      else match split_nl s' with
           | l :: ls => (c :: l) :: ls
           | [] => [[c]]
           end
  end.

(** ['\n'.join(ls)] *)
Fixpoint join_nl (ls : list text) : text :=
  match ls with
  | [] => []
  | [l] => l
  | l :: ls' => l ++ NL :: join_nl ls'
  end.

(** ** Regular expressions

    The constructs of [re] that occur in the script's patterns.
    Repetition is only ever applied to a character class there, so
    [Star] and [Plus] take a class. *)

Inductive regex : Type :=
| Bol                               (* ^ under re.MULTILINE *)
| Lit (l : text)                    (* a literal string *)
| Star (p : ascii -> bool)          (* [p]*, greedy *)
| Plus (p : ascii -> bool)          (* [p]+, greedy *)
| Seq (r1 r2 : regex)               (* r1 r2 *)
| Opt (r : regex)                   (* r?, greedy *)
| Group (n : nat) (r : regex)       (* capturing group number n *)
| Look (r : regex).                 (* (?=r) *)

(** A pattern written as the sequence of its items. *)
Fixpoint cat (rs : list regex) : regex :=
  match rs with
  | [] => Lit []
  | [r] => r
  | r :: rs' => Seq r (cat rs')
  end.

(** Captured groups: group number and captured text, most recent
    binding first. *)
Definition groups := list (nat * text).

Fixpoint group (n : nat) (g : groups) : option text :=
  match g with
  | [] => None
  | (m, t) :: g' => if Nat.eqb n m then Some t else group n g'
  end.

(** The matcher is a backtracking matcher in continuation-passing style.
    Its position is the previous character ([None] at the start of the
    subject) and the rest of the subject; [k] is what remains to be
    matched.  A result [None] makes the caller try its next
    alternative. *)
Section Matcher.
Context {A : Type}.

(** The character before the position reached by reading [l] from a
    position whose previous character is [prev]. *)
Definition last_of (prev : option ascii) (l : text) : option ascii :=
  fold_left (fun _ c => Some c) l prev.

Definition at_bol (prev : option ascii) : bool :=
  match prev with
  | None => true
  | Some c => Ascii.eqb c NL
  end.

Definition match_lit (l : text)
    (k : option ascii -> text -> groups -> option A)
    (prev : option ascii) (s : text) (g : groups) : option A :=
  if startswith l s then k (last_of prev l) (skipn (length l) s) g
  else None.

(** Greedy: as many characters of the class as possible first, then
    one fewer, and so on. *)
Fixpoint match_star (p : ascii -> bool)
    (k : option ascii -> text -> groups -> option A)
    (prev : option ascii) (s : text) (g : groups) : option A :=
  match s with
  | c :: s' =>
      if p c then
        match match_star p k (Some c) s' g with
        | Some a => Some a
        | None => k prev s g
        end
      else k prev s g
  | [] => k prev s g
  end.

Definition match_plus (p : ascii -> bool)
    (k : option ascii -> text -> groups -> option A)
    (prev : option ascii) (s : text) (g : groups) : option A :=
  match s with
  | c :: s' => if p c then match_star p k (Some c) s' g else None
  | [] => None
  end.
End Matcher.

Fixpoint rmatch {A : Type} (r : regex)
    (k : option ascii -> text -> groups -> option A)
    (prev : option ascii) (s : text) (g : groups) : option A :=
  match r with
  | Bol => if at_bol prev then k prev s g else None
  | Lit l => match_lit l k prev s g
  | Star p => match_star p k prev s g
  | Plus p => match_plus p k prev s g
  | Seq r1 r2 => rmatch r1 (rmatch r2 k) prev s g
  | Opt r' =>
      match rmatch r' k prev s g with
      | Some a => Some a
      | None => k prev s g
      end
  | Group n r' =>
      rmatch r'
        (fun prev' s' g' =>
           k prev' s' ((n, firstn (length s - length s') s) :: g'))
        prev s g
  | Look r' =>
      match rmatch r' (fun _ _ g' => Some g') prev s g with
      | Some g' => k prev s g'
      | None => None
      end
  end.

(** One match attempt at a position: the length of the match and its
    groups. *)
Definition match_at (r : regex) (prev : option ascii) (s : text)
  : option (nat * groups) :=
  rmatch r (fun _ s' g => Some (length s - length s', g)) prev s [].

(** ** Scanning a subject: [re.search], [re.findall], [re.split], [re.sub]

    [re] scans the subject from left to right, tries the pattern at each
    position, and after a match goes on from the end of that match.
    [scan] cuts the subject accordingly: each match comes with the text
    between the previous match and itself ([gap]), and the text after
    the last match is returned beside the list. *)

Record found : Type := Found { gap : text; matched : text; caps : groups }.

Definition push (c : ascii) (r : list found * text) : list found * text :=
  match r with
  | (f :: fs, t) => (Found (c :: gap f) (matched f) (caps f) :: fs, t)
  | ([], t) => ([], c :: t)
  end.

(** [skip] counts the characters of the current match that are still to
    be stepped over.  None of the script's patterns matches the empty
    string (see [split_pattern_consumes] and its siblings below); a match
    of length zero is stepped over by one character. *)
Fixpoint scan (r : regex) (prev : option ascii) (s : text) (skip : nat)
  {struct s} : list found * text :=
  match skip with
  | S n =>
      match s with
      | c :: s' => scan r (Some c) s' n
      | [] => ([], [])
      end
  | 0 =>
      match match_at r prev s with
      | Some (len, g) =>
          let rest :=
            match s with
            | c :: s' =>
                match len with
                | 0 => push c (scan r (Some c) s' 0)
                | S n => scan r (Some c) s' n
                end
            | [] => ([], [])
            end in
          (Found [] (firstn len s) g :: fst rest, snd rest)
      | None =>
          match s with
          | c :: s' => push c (scan r (Some c) s' 0)
          | [] => ([], [])
          end
      end
  end.

Definition finditer (r : regex) (s : text) : list found :=
  fst (scan r None s 0).

(** [re.findall] for a pattern with two groups: the pair of the groups of
    each match, the empty string for a group that did not take part. *)
Definition findall (r : regex) (s : text) : list (text * text) :=
  map (fun f => (default [] (group 1 (caps f)), default [] (group 2 (caps f))))
      (finditer r s).

(** [re.search]: the first position, from the left, where the pattern
    matches; [start], [end] and the groups of the match object. *)
Record match_object : Type :=
  MatchObject { m_start : nat; m_end : nat; m_groups : groups }.

Fixpoint search_from (r : regex) (prev : option ascii) (s : text) (i : nat)
  : option match_object :=
  match match_at r prev s with
  | Some (len, g) => Some (MatchObject i (i + len) g)
  | None =>
      match s with
      | c :: s' => search_from r (Some c) s' (S i)
      | [] => None
      end
  end.

Definition search (r : regex) (s : text) : option match_object :=
  search_from r None s 0.

(** Number of capturing groups of a pattern. *)
Fixpoint ngroups (r : regex) : nat :=
  match r with
  | Bol | Lit _ | Star _ | Plus _ => 0
  | Seq r1 r2 => ngroups r1 + ngroups r2
  | Opt r' | Look r' => ngroups r'
  | Group _ r' => S (ngroups r')
  end.

(** [re.split]: the texts between the matches, and after each match the
    text of every group of the pattern; a group that did not take part
    in the match gives Python's [None]. *)
Definition re_split (r : regex) (s : text) : list (option text) :=
  let '(fs, t) := scan r None s 0 in
  flat_map (fun f => Some (gap f)
                     :: map (fun n => group n (caps f)) (seq 1 (ngroups r))) fs
  ++ [Some t].

(** A replacement template: literal text and group references [\n].  A
    group that did not take part is replaced by the empty string. *)
Inductive titem : Type :=
| TLit (t : text)
| TRef (n : nat).

Definition expand (repl : list titem) (g : groups) : text :=
  flat_map (fun it => match it with
                      | TLit t => t
                      | TRef n => default [] (group n g)
                      end) repl.

(** [re.sub]: every match replaced by the expanded template. *)
Definition re_sub (r : regex) (repl : list titem) (s : text) : text :=
  let '(fs, t) := scan r None s 0 in
  flat_map (fun f => gap f ++ expand repl (caps f)) fs ++ t.

(** ** The patterns of the script *)

(** [^export\s+(async\s+)?function\s+(\w+)\s*\(] *)
Definition export_pattern : regex :=
  cat [Bol; Lit (str "export"); Plus isspace;
       Opt (Group 1 (cat [Lit (str "async"); Plus isspace]));
       Lit (str "function"); Plus isspace; Group 2 (Plus isword);
       Star isspace; Lit (str "(")].

(** [\n(?=export\s+(async\s+)?function)] *)
Definition split_pattern : regex :=
  cat [Lit [NL];
       Look (cat [Lit (str "export"); Plus isspace;
                  Opt (Group 1 (cat [Lit (str "async"); Plus isspace]));
                  Lit (str "function")])].

(** [^export\s+] *)
Definition export_prefix_pattern : regex :=
  cat [Bol; Lit (str "export"); Plus isspace].

(** [^(async\s+)?function\s+(\w+)\s*\(] with its replacement [\1\2(] *)
Definition function_pattern : regex :=
  cat [Bol; Opt (Group 1 (cat [Lit (str "async"); Plus isspace]));
       Lit (str "function"); Plus isspace; Group 2 (Plus isword);
       Star isspace; Lit (str "(")].

Definition method_template : list titem :=
  [TRef 1; TRef 2; TLit (str "(")].

(** ** Files, console and exceptions

    The script reads and overwrites files and prints progress lines.  A
    [world] holds the platform the script runs on, the files (path to
    the characters stored in the file) and the lines printed so far,
    oldest first.  A computation either returns a value or raises. *)

Inductive exn : Type :=
| AttributeError      (* 'NoneType' object has no attribute 'strip' *)
| FileNotFoundError.  (* open(filepath, 'r') on a missing file *)

Inductive event : Type :=
| NoExportsFound (filepath : string)            (* No exports found in ... *)
| FoundExports (n : nat) (service_name : string)  (* Found n exports in ... *)
| Converted (service_name : string)             (* [OK] Converted ... *)
| ErrorConverting (filename : string) (e : exn) (* [FAIL] Error converting ... *)
| FileNotFound (filepath : string).             (* [FAIL] File not found: ... *)

(** Both [open] calls of the script are in text mode with the default
    [newline=None].  Reading translates [\r\n] and a [\r] on its own
    to [\n] (universal newlines); [cr] tells that the character before
    was a [\r], already given out as [\n].  Writing translates every
    [\n] to [os.linesep], which is [\n] or [\r\n]. *)
Definition CR : ascii := "013"%char.

Inductive platform : Type := Posix | Windows.

Definition linesep (p : platform) : text :=
  match p with
  | Posix => [NL]
  | Windows => [CR; NL]
  end.

Fixpoint universal_newlines_after (cr : bool) (s : text) : text :=
  match s with
  | [] => []
  | c :: s' =>
      if Ascii.eqb c CR then NL :: universal_newlines_after true s'
      else if cr && Ascii.eqb c NL then universal_newlines_after false s'
      else c :: universal_newlines_after false s'
  end.

Definition universal_newlines (s : text) : text :=
  universal_newlines_after false s.

Definition translate_newlines (p : platform) (s : text) : text :=
  flat_map (fun c => if Ascii.eqb c NL then linesep p else [c]) s.

Record world : Type :=
  World { os : platform; files : gmap string text; stdout : list event }.

Inductive outcome (A : Type) : Type :=
| Val (a : A)
| Exc (e : exn).
Arguments Val {A} a.
Arguments Exc {A} e.

Definition M (A : Type) : Type := world -> world * outcome A.

Definition ret {A : Type} (a : A) : M A := fun w => (w, Val a).

Definition bind {A B : Type} (m : M A) (f : A -> M B) : M B :=
  fun w =>
    match m w with
    | (w', Val a) => f a w'
    | (w', Exc e) => (w', Exc e)
    end.

Notation "x <- m ;; k" := (bind m (fun x => k))
  (at level 100, m at next level, right associativity,
   format "'[v' x  <-  m  ;; '/' k ']'").
Notation "m ;;; k" := (bind m (fun _ => k))
  (at level 100, right associativity, format "'[v' m  ;;; '/' k ']'").

(** [try: m except Exception as e: h e] for a body whose value is
    dropped. *)
Definition try_except {A : Type} (m : M A) (h : exn -> M unit) : M unit :=
  fun w =>
    match m w with
    | (w', Val _) => (w', Val tt)
    | (w', Exc e) => h e w'
    end.

Definition print (ev : event) : M unit :=
  fun w => (World (os w) (files w) (stdout w ++ [ev]), Val tt).

(** [open(filepath, 'r').read()] *)
Definition read_file (filepath : string) : M text :=
  fun w =>
    match files w !! filepath with
    | Some stored => (w, Val (universal_newlines stored))
    | None => (w, Exc FileNotFoundError)
    end.

(** [open(filepath, 'w').write(new_content)] *)
Definition write_file (filepath : string) (new_content : text) : M unit :=
  fun w =>
    (World (os w)
           (<[filepath := translate_newlines (os w) new_content]> (files w))
           (stdout w),
     Val tt).

(** [filepath.exists()] *)
Definition path_exists (filepath : string) : M bool :=
  fun w => (w, Val (bool_decide (is_Some (files w !! filepath)))).

(** ** [convert_service_file] *)

(** The indentation of a block (the list comprehension and the join). *)
Definition indent_line (line : text) : text :=
  if truthy (strip line) then str "  " ++ line else line.

Definition indent_block (block : text) : text :=
  join_nl (map indent_line (split_nl block)).

(** The two rewritings of a block: [re.sub(r'^export\s+', '', block)]
    and [re.sub(r'^(async\s+)?function\s+(\w+)\s*\(', r'\1\2(', block)],
    both under [re.MULTILINE]. *)
Definition remove_export (block : text) : text :=
  re_sub export_prefix_pattern [] block.

Definition function_to_method (block : text) : text :=
  re_sub function_pattern method_template block.

(** The body of [for i, block in enumerate(function_blocks)]: [n] is
    [len(function_blocks)], [i] the index of the head of [blocks].  A
    block that is [None] raises at [block.strip()]. *)
Fixpoint convert_blocks (n i : nat) (blocks : list (option text))
    (new_content : text) : outcome text :=
  match blocks with
  | [] => Val new_content
  | None :: _ => Exc AttributeError
  | Some block :: blocks' =>
      if negb (truthy (strip block)) || negb (startswith (str "export") block)
      then convert_blocks n (S i) blocks' new_content
      else
        let block := remove_export block in
        let block := function_to_method block in
        let method_block := indent_block block in
        let method_block :=
          if i <? n - 1 then rstrip method_block ++ str "," else method_block in
        convert_blocks n (S i) blocks' (new_content ++ method_block ++ [NL])
  end.

Definition lift {A : Type} (o : outcome A) : M A := fun w => (w, o).

Definition convert_service_file (filepath service_name : string) : M bool :=
  content <- read_file filepath ;;
  let exports := findall export_pattern content in
  match exports with
  | [] =>
      print (NoExportsFound filepath) ;;;
      ret false
  | _ :: _ =>
      print (FoundExports (length exports) service_name) ;;;
      match search export_pattern content with
      | None => ret false
      | Some first_export_match =>
          let imports_section :=
            rstrip (firstn (m_start first_export_match) content) in
          let new_content := imports_section ++ [NL; NL] in
          let new_content :=
            new_content ++ str "export const " ++ str service_name
                        ++ str " = {" ++ [NL] in
          let remaining := skipn (m_start first_export_match) content in
          let function_blocks := re_split split_pattern (NL :: remaining) in
          new_content <- lift (convert_blocks (length function_blocks) 0
                                              function_blocks new_content) ;;
          let new_content := new_content ++ str "};" ++ [NL] in
          write_file filepath new_content ;;;
          print (Converted service_name) ;;;
          ret true
      end
  end.

(** ** [main] *)

(** [dir / name] on paths. *)
Definition path_join (dir name : string) : string := dir +:+ "/" +:+ name.

Definition services_to_convert : list (string * string) :=
  [("status-service.js", "statusService");
   ("checklist-service.js", "checklistService");
   ("tag-service.js", "tagService");
   ("comment-service.js", "commentService");
   ("time-tracking-service.js", "timeTrackingService");
   ("auth-service.js", "authService");
   ("realtime-service.js", "realtimeService");
   ("activity-service.js", "activityService");
   ("space-service.js", "spaceService");
   ("project-service.js", "projectService");
   ("gantt-service.js", "ganttService");
   ("dashboard-service.js", "dashboardService");
   ("reports-service.js", "reportsService");
   ("profile-service.js", "profileService")]%string.

(** The body of the [for] loop of [main]. *)
Definition convert_entry (services_dir : string) (entry : string * string)
  : M unit :=
  let '(filename, service_name) := entry in
  let filepath := path_join services_dir filename in
  present <- path_exists filepath ;;
  if (present : bool) then
    try_except (convert_service_file filepath service_name)
               (fun e => print (ErrorConverting filename e))
  else print (FileNotFound filepath).

Fixpoint for_each (services_dir : string) (entries : list (string * string))
  : M unit :=
  match entries with
  | [] => ret tt
  | entry :: entries' =>
      convert_entry services_dir entry ;;;
      for_each services_dir entries'
  end.

(** [script_dir] is [Path(__file__).parent]. *)
Definition main (script_dir : string) : M unit :=
  let services_dir :=
    path_join (path_join (path_join (path_join script_dir "frontend") "src")
                         "js") "services" in
  for_each services_dir services_to_convert.

(** ** Definitions used to state the properties *)

(** The top of the output: the import section, a blank line and the
    opening line of the object literal. *)
Definition header (imports_section : text) (service_name : string) : text :=
  (imports_section ++ [NL; NL])
    ++ str "export const " ++ str service_name ++ str " = {" ++ [NL].

(** The batch driver in the words of its description: every entry is
    taken in turn; a missing file is reported; an existing file is
    converted, and an exception of the converter is reported; in each
    case the run goes on with the remaining entries.  [batch dir entries
    w w'] relates the world before the entries to the world after them. *)
Inductive batch (services_dir : string)
  : list (string * string) -> world -> world -> Prop :=
| batch_done w :
    batch services_dir [] w w
| batch_missing filename service_name entries w w' :
    files w !! path_join services_dir filename = None ->
    batch services_dir entries
          (World (os w) (files w)
                 (stdout w ++ [FileNotFound (path_join services_dir filename)]))
          w' ->
    batch services_dir ((filename, service_name) :: entries) w w'
| batch_converted filename service_name entries w w1 b w' :
    is_Some (files w !! path_join services_dir filename) ->
    convert_service_file (path_join services_dir filename) service_name w
    = (w1, Val b) ->
    batch services_dir entries w1 w' ->
    batch services_dir ((filename, service_name) :: entries) w w'
| batch_failed filename service_name entries w w1 e w' :
    is_Some (files w !! path_join services_dir filename) ->
    convert_service_file (path_join services_dir filename) service_name w
    = (w1, Exc e) ->
    batch services_dir entries
          (World (os w1) (files w1)
                 (stdout w1 ++ [ErrorConverting filename e])) w' ->
    batch services_dir ((filename, service_name) :: entries) w w'.

(** A line has a character that is not whitespace. *)
Definition nonblank (line : text) : bool :=
  existsb (fun c => negb (isspace c)) line.

(** A pattern without [^]: its matches do not depend on what stands
    before the position. *)
Fixpoint bolfree (r : regex) : bool :=
  match r with
  | Bol => false
  | Lit _ | Star _ | Plus _ => true
  | Seq r1 r2 => bolfree r1 && bolfree r2
  | Opt r' | Group _ r' | Look r' => bolfree r'
  end.

(** [export\s+(async\s+)?function], the part that the export pattern and
    the lookahead of the split pattern share, and [\s+(\w+)\s*\(], the
    rest of the export pattern. *)
Definition export_head : regex :=
  cat [Lit (str "export"); Plus isspace;
       Opt (Group 1 (cat [Lit (str "async"); Plus isspace]));
       Lit (str "function")].

Definition signature_tail : regex :=
  cat [Plus isspace; Group 2 (Plus isword); Star isspace; Lit (str "(")].

(** The texts a scan cuts the subject into: the gaps before the matches
    and the text after the last match. *)
Definition pieces (r : list found * text) : list text :=
  map gap (fst r) ++ [snd r].

(** The method block made from a function block, before the comma. *)
Definition method_block (block : text) : text :=
  indent_block (function_to_method (remove_export block)).

(** Group 1 took part in a match. *)
Definition has_group1 (f : found) : bool :=
  match group 1 (caps f) with Some _ => true | None => false end.

(** The text [re.sub] makes from the result of a scan. *)
Definition replaced (repl : list titem) (r : list found * text) : text :=
  flat_map (fun f => gap f ++ expand repl (caps f)) (fst r) ++ snd r.

(** The marker in front of [function]: nothing, or [async] and
    whitespace. *)
Definition async_marker (marker : text) : Prop :=
  marker = []
  \/ exists ws2, ws2 <> [] /\ forallb isspace ws2 = true
                 /\ marker = str "async" ++ ws2.

(** Sample texts: the scenario of the description, and a file with one
    exported function that is not async. *)
Definition scenario : text :=
  str "export function foo() { return 1; }" ++ [NL]
  ++ str "export async function bar() { return 2; }".

Definition plain_export : text := str "export function foo() { return 1; }".

(** A file with an async function and an async generator: one match of
    the export pattern, two lines that the split pattern cuts at. *)
Definition generator_export : text :=
  str "export async function a() {}" ++ [NL]
  ++ str "export async function* g() {}".

(** A file whose only exported function is named [export], the name on
    a line of its own. *)
Definition export_named : text :=
  str "export async function" ++ [NL] ++ str "export (x) {}".

(** A file with an import line, an async function and a function that is
    not async. *)
Definition mixed_exports : text :=
  str "import x from 'y';" ++ [NL; NL]
  ++ str "export async function f() {}" ++ [NL]
  ++ str "export function g() {}".

(** A file with an async function followed by a function that is not
    async. *)
Definition async_then_plain : text :=
  str "export async function a() {}" ++ [NL]
  ++ str "export function b() {}".

(** The indentation of one line, in the words of the description: two
    spaces in front of a line that has a character other than
    whitespace, every other line as it is. *)
Definition indented (line : text) : text :=
  if nonblank line then str "  " ++ line else line.

(** Two async functions, next to each other and with an empty line
    between them. *)
Definition async_pair : text :=
  str "export async function f() {}" ++ [NL]
  ++ str "export async function g() {}".

Definition blank_between : text :=
  str "export async function f() {}" ++ [NL; NL]
  ++ str "export async function g() {}".

(** ** Definitions used to state the further properties *)

(** A printed line that closes the work on one entry of the batch; the
    line [Found n exports] does not. *)
Definition is_closing (ev : event) : bool :=
  match ev with
  | FoundExports _ _ => false
  | _ => true
  end.

(** The closing lines an entry of the batch can get. *)
Definition closes (services_dir : string) (entry : string * string)
    (ev : event) : Prop :=
  ev = NoExportsFound (path_join services_dir (fst entry))
  \/ ev = Converted (snd entry)
  \/ (exists e, ev = ErrorConverting (fst entry) e)
  \/ ev = FileNotFound (path_join services_dir (fst entry)).

(** What [main] prints for an entry that has nothing to convert: the
    file is missing, or it has no match of the export pattern. *)
Definition idle_report (services_dir : string) (fs : gmap string text)
    (entry : string * string) : event :=
  match fs !! path_join services_dir (fst entry) with
  | Some _ => NoExportsFound (path_join services_dir (fst entry))
  | None => FileNotFound (path_join services_dir (fst entry))
  end.

(** The directory [main] works in. *)
Definition services_dir_of (script_dir : string) : string :=
  path_join (path_join (path_join (path_join script_dir "frontend") "src")
                       "js") "services".

(** Sample inputs: a file with two async functions, alone in its
    directory. *)
Definition two_async : text :=
  str "export async function f() {}" ++ [NL]
  ++ str "export async function g() {}".

Definition sample_world : world :=
  World Posix {["a.js"%string := two_async]} [].

(** A text that starts with [export], whitespace and [function], with no
    [async] between them; and a text in which the start or some line
    does. *)
Definition plain_function_line (s : text) : Prop :=
  exists ws t, ws <> [] /\ forallb isspace ws = true
               /\ s = str "export" ++ ws ++ str "function" ++ t.

Definition has_plain_function (s : text) : Prop :=
  plain_function_line s
  \/ exists u v, s = u ++ NL :: v /\ plain_function_line v.

(** No line of [s] behind its first starts with [export], [async] or
    [function]. *)
Fixpoint keyword_free_lines (s : text) : bool :=
  match s with
  | [] => true
  | c :: s' =>
      (if Ascii.eqb c NL
       then negb (startswith (str "export") s')
            && negb (startswith (str "async") s')
            && negb (startswith (str "function") s')
       else true)
      && keyword_free_lines s'
  end.

(** No line of [s] starts with the letter [e]; [q] is the character in
    front of [s]. *)
Fixpoint line_heads_ok (q : option ascii) (s : text) : bool :=
  match s with
  | [] => true
  | c :: s' =>
      negb (at_bol q && Ascii.eqb "e" c) && line_heads_ok (Some c) s'
  end.

(** A text whose last character is not whitespace. *)
Definition ends_nonspace (l : text) : Prop :=
  exists l0 x, l = l0 ++ [x] /\ isspace x = false.

(** Every captured text is made of characters with the property [P]. *)
Definition groups_all (P : ascii -> Prop) (g : groups) : Prop :=
  Forall (fun nt => Forall P (snd nt)) g.

(** The literal texts of a replacement template are made of such
    characters. *)
Definition template_all (P : ascii -> Prop) (repl : list titem) : Prop :=
  Forall (fun it => match it with
                    | TLit t => Forall P t
                    | TRef _ => True
                    end) repl.

(** * Properties *)

(** ** Scanning *)

Lemma push_fst_nil c r : fst (push c r) = [] <-> fst r = [].
Proof.
  destruct r as [[|f fs] t]; simpl; split; intros H; try reflexivity;
    discriminate H.
Qed.

(** [scan] finds nothing exactly when [search_from] finds nothing. *)
Lemma scan_nil_search_None r s :
  forall prev i, fst (scan r prev s 0) = [] <-> search_from r prev s i = None.
Proof.
  induction s as [|c s IH]; intros prev i; simpl.
  - destruct (match_at r prev []) as [[len g]|]; simpl; split; intros H;
      try reflexivity; discriminate H.
  - destruct (match_at r prev (c :: s)) as [[len g]|]; simpl.
    + split; intros H; discriminate H.
    + rewrite push_fst_nil. apply IH.
Qed.

Lemma findall_nil_search_None r s :
  findall r s = [] <-> search r s = None.
Proof.
  unfold findall, search, finditer.
  rewrite <- (scan_nil_search_None r s None 0).
  destruct (fst (scan r None s 0)); simpl; split; intros H;
    try reflexivity; discriminate H.
Qed.

(** ** Newlines *)

(** What is read has no [\r] in it. *)
Lemma universal_newlines_after_no_cr s :
  forall cr, Forall (fun c => c <> CR) (universal_newlines_after cr s).
Proof.
  induction s as [|c s IH]; intros cr; cbn [universal_newlines_after];
    [constructor|].
  destruct (Ascii.eqb c CR) eqn:Ec.
  - constructor; [discriminate|apply IH].
  - destruct (cr && Ascii.eqb c NL); [apply IH|].
    constructor; [|apply IH].
    intros ->. rewrite Ascii.eqb_refl in Ec. discriminate Ec.
Qed.

Lemma universal_newlines_no_cr s :
  Forall (fun c => c <> CR) (universal_newlines s).
Proof. apply universal_newlines_after_no_cr. Qed.

(** A text without [\r] is read back as it was given to [write], on
    either platform. *)
Lemma read_back p t :
  Forall (fun c => c <> CR) t ->
  universal_newlines (translate_newlines p t) = t.
Proof.
  unfold universal_newlines, translate_newlines.
  induction t as [|c t IH]; intros H; [reflexivity|].
  apply List.Forall_cons_iff in H as [Hc H]. specialize (IH H).
  cbn [flat_map]. destruct (Ascii.eqb c NL) eqn:En.
  - apply Ascii.eqb_eq in En. subst c.
    destruct p; cbn [linesep app universal_newlines_after] in *;
      change (Ascii.eqb NL CR) with false; change (Ascii.eqb CR CR) with true;
      change (Ascii.eqb NL NL) with true; cbn [andb]; rewrite IH; reflexivity.
  - cbn [app universal_newlines_after].
    destruct (Ascii.eqb c CR) eqn:Ec;
      [apply Ascii.eqb_eq in Ec; contradiction|].
    cbn [andb]. rewrite IH. reflexivity.
Qed.

(** ** The monad's plumbing *)

Lemma read_file_stored filepath w stored :
  files w !! filepath = Some stored ->
  read_file filepath w = (w, Val (universal_newlines stored)).
Proof. intros H. unfold read_file. rewrite H. reflexivity. Qed.

Lemma read_file_Val filepath w w' content :
  read_file filepath w = (w', Val content) ->
  exists stored,
    files w !! filepath = Some stored /\ content = universal_newlines stored.
Proof.
  unfold read_file. destruct (files w !! filepath) as [stored|];
    [|discriminate].
  intros H. injection H as _ <-. eauto.
Qed.

Lemma convert_service_file_missing filepath service_name w :
  files w !! filepath = None ->
  convert_service_file filepath service_name w = (w, Exc FileNotFoundError).
Proof.
  intros H. unfold convert_service_file, bind, read_file. rewrite H.
  reflexivity.
Qed.

Lemma convert_service_file_no_exports filepath service_name w content :
  read_file filepath w = (w, Val content) ->
  findall export_pattern content = [] ->
  convert_service_file filepath service_name w
  = (World (os w) (files w) (stdout w ++ [NoExportsFound filepath]),
     Val false).
Proof.
  intros H E. unfold convert_service_file, bind. rewrite H, E.
  reflexivity.
Qed.

(** What a run on an existing file with at least one export does, as one
    case distinction on the outcome of the loop over the blocks. *)
Lemma convert_service_file_exports filepath service_name w content m :
  read_file filepath w = (w, Val content) ->
  search export_pattern content = Some m ->
  let w1 := World (os w) (files w)
                  (stdout w ++ [FoundExports
                                  (length (findall export_pattern content))
                                  service_name]) in
  let function_blocks :=
    re_split split_pattern (NL :: skipn (m_start m) content) in
  convert_service_file filepath service_name w
  = match convert_blocks (length function_blocks) 0 function_blocks
            (header (rstrip (firstn (m_start m) content)) service_name) with
    | Val new_content =>
        (World (os w)
               (<[filepath := translate_newlines (os w)
                                (new_content ++ str "};" ++ [NL])]> (files w))
               (stdout w1 ++ [Converted service_name]), Val true)
    | Exc e => (w1, Exc e)
    end.
Proof.
  intros H Hs w1 function_blocks.
  unfold convert_service_file, bind. rewrite H.
  destruct (findall export_pattern content) as [|x xs] eqn:E.
  - apply findall_nil_search_None in E. congruence.
  - unfold print at 1. cbn [os files stdout]. rewrite Hs.
    unfold lift. fold function_blocks. unfold header.
    destruct (convert_blocks _ _ _ _); reflexivity.
Qed.

(** The three courses of a call: the file is missing, its text has no
    match of the export pattern, or it has one. *)
Lemma convert_service_file_cases filepath w :
  files w !! filepath = None
  \/ (exists content,
        read_file filepath w = (w, Val content)
        /\ findall export_pattern content = [])
  \/ (exists content m,
        read_file filepath w = (w, Val content)
        /\ search export_pattern content = Some m).
Proof.
  destruct (files w !! filepath) as [stored|] eqn:Hf; [right|left; reflexivity].
  apply read_file_stored in Hf.
  destruct (search export_pattern (universal_newlines stored)) as [m|] eqn:Hs.
  - right. eauto.
  - left. apply findall_nil_search_None in Hs. eauto.
Qed.

(** ** No export, no write *)

(** C3: on a file whose text has no match of the export pattern the
    converter writes nothing: the files are as before, the call returns
    [False] and raises nothing; it prints that no export was found. *)
Theorem no_exports_is_noop filepath service_name w content :
  read_file filepath w = (w, Val content) ->
  findall export_pattern content = [] ->
  exists w',
    convert_service_file filepath service_name w = (w', Val false)
    /\ files w' = files w
    /\ stdout w' = stdout w ++ [NoExportsFound filepath].
Proof.
  intros H E. eexists. split.
  - apply convert_service_file_no_exports with (content := content); assumption.
  - split; reflexivity.
Qed.

Lemma no_exports_is_noop_witness :
  exists w',
    convert_service_file "a.js" "svc"
      (World Posix {["a.js"%string := str "import x from 'y';"]} [])
    = (w', Val false)
    /\ files w' = {["a.js"%string := str "import x from 'y';"]}
    /\ stdout w' = [NoExportsFound "a.js"].
Proof.
  refine (no_exports_is_noop "a.js" "svc"
            (World Posix {["a.js"%string := str "import x from 'y';"]} [])
            (str "import x from 'y';") _ _).
  - vm_compute. reflexivity.
  - vm_compute. reflexivity.
Defined.

(** ** The second early return *)

(** C9: when [re.findall] with the export pattern is not empty,
    [re.search] with the same pattern on the same text succeeds; so the
    branch [if not first_export_match: return False] is never taken: a
    call on such a text never returns [False]. *)
Theorem search_succeeds_after_findall content :
  findall export_pattern content <> [] ->
  (exists m, search export_pattern content = Some m)
  /\ forall filepath service_name w,
       read_file filepath w = (w, Val content) ->
       snd (convert_service_file filepath service_name w) <> Val false.
Proof.
  intros Hne.
  assert (exists m, search export_pattern content = Some m) as [m Hm].
  { destruct (search export_pattern content) as [m|] eqn:E; [eauto|].
    apply findall_nil_search_None in E. contradiction. }
  split; [eauto|].
  intros filepath service_name w Hf.
  rewrite (convert_service_file_exports _ _ _ _ _ Hf Hm).
  destruct (convert_blocks _ _ _ _); simpl; discriminate.
Qed.

Lemma search_succeeds_after_findall_witness :
  (exists m, search export_pattern (str "export async function f() {}") = Some m)
  /\ forall filepath service_name w,
       read_file filepath w = (w, Val (str "export async function f() {}")) ->
       snd (convert_service_file filepath service_name w) <> Val false.
Proof.
  apply (search_succeeds_after_findall (str "export async function f() {}")).
  vm_compute. discriminate.
Defined.

(** ** Exceptions and the file *)

(** C10: when a call of [convert_service_file] raises, the files are as
    they were before the call: the only write is the last step, after
    the whole output text has been built. *)
Theorem exception_leaves_file_unchanged filepath service_name w w' e :
  convert_service_file filepath service_name w = (w', Exc e) ->
  files w' = files w.
Proof.
  intros H.
  destruct (convert_service_file_cases filepath w)
    as [Hf|[(content & Hf & Hs)|(content & m & Hf & Hs)]].
  - rewrite (convert_service_file_missing _ _ _ Hf) in H.
    inversion H; reflexivity.
  - rewrite (convert_service_file_no_exports _ _ _ _ Hf Hs) in H.
    discriminate H.
  - rewrite (convert_service_file_exports _ _ _ _ _ Hf Hs) in H.
    destruct (convert_blocks _ _ _ _); inversion H; reflexivity.
Qed.

Lemma exception_leaves_file_unchanged_witness :
  files (World Posix {["a.js"%string := str "export function f() {}"]}
               [FoundExports 1 "svc"])
  = {["a.js"%string := str "export function f() {}"]}.
Proof.
  refine (exception_leaves_file_unchanged "a.js" "svc"
            (World Posix {["a.js"%string := str "export function f() {}"]} [])
            _ AttributeError _).
  vm_compute. reflexivity.
Defined.

(** ** The batch driver *)

Lemma for_each_batch services_dir entries :
  forall w, exists w',
    for_each services_dir entries w = (w', Val tt)
    /\ batch services_dir entries w w'.
Proof.
  induction entries as [|[filename service_name] entries IH]; intros w.
  - exists w. split; [reflexivity | constructor].
  - simpl. unfold bind at 1. unfold convert_entry, bind, path_exists.
    destruct (files w !! path_join services_dir filename) as [content|] eqn:Hf.
    + rewrite bool_decide_true by eauto.
      unfold try_except.
      destruct (convert_service_file (path_join services_dir filename)
                  service_name w) as [w1 [b|e]] eqn:Hc.
      * destruct (IH w1) as [w' [Hrun Hb]]. exists w'. split; [exact Hrun|].
        eapply batch_converted; eauto.
      * unfold print.
        destruct (IH (World (os w1) (files w1)
                            (stdout w1 ++ [ErrorConverting filename e])))
          as [w' [Hrun Hb]].
        exists w'. split; [exact Hrun|].
        eapply batch_failed; eauto.
    + rewrite bool_decide_false by (intros [? ?]; discriminate).
      unfold print.
      destruct (IH (World (os w) (files w)
                          (stdout w ++ [FileNotFound
                                          (path_join services_dir filename)])))
        as [w' [Hrun Hb]].
      exists w'. split; [exact Hrun|].
      eapply batch_missing; eauto.
Qed.

(** C8: [main] takes every entry of its fixed list in order.  For an
    existing file it calls the converter and, when the converter raises,
    reports the exception and goes on; for a missing file it reports
    that the file was not found and goes on.  No exception leaves the
    loop, so every entry is reached whatever happened before it. *)
Theorem main_attempts_every_entry script_dir w :
  let services_dir :=
    path_join (path_join (path_join (path_join script_dir "frontend") "src")
                         "js") "services" in
  exists w',
    main script_dir w = (w', Val tt)
    /\ batch services_dir services_to_convert w w'.
Proof.
  intros services_dir. unfold main. fold services_dir.
  apply for_each_batch.
Qed.

(** ** Lines, [strip] and the indentation *)

Lemma existsb_rev {A : Type} (f : A -> bool) (l : list A) :
  existsb f (rev l) = existsb f l.
Proof.
  induction l as [|a l IH]; simpl; [reflexivity|].
  rewrite existsb_app, IH. simpl. rewrite orb_false_r. apply orb_comm.
Qed.

Lemma nonblank_lstrip s : nonblank (lstrip s) = nonblank s.
Proof.
  induction s as [|c s IH]; simpl; [reflexivity|].
  destruct (isspace c) eqn:E; simpl; rewrite ?E; simpl; [exact IH|reflexivity].
Qed.

Lemma truthy_lstrip s : truthy (lstrip s) = nonblank s.
Proof.
  induction s as [|c s IH]; simpl; [reflexivity|].
  destruct (isspace c) eqn:E; simpl; [exact IH|reflexivity].
Qed.

(** [if line.strip()] tests for a character that is not whitespace. *)
Lemma truthy_strip s : truthy (strip s) = nonblank s.
Proof.
  unfold strip, rstrip. rewrite truthy_lstrip.
  unfold nonblank at 1. rewrite existsb_rev. fold (nonblank (lstrip (rev s))).
  rewrite nonblank_lstrip. unfold nonblank. apply existsb_rev.
Qed.

Lemma split_nl_not_nil s : split_nl s <> [].
Proof.
  destruct s as [|c s]; simpl; [discriminate|].
  destruct (Ascii.eqb c NL); [discriminate|].
  destruct (split_nl s); discriminate.
Qed.

Lemma split_nl_no_newline s : Forall (fun l => ~ In NL l) (split_nl s).
Proof.
  induction s as [|c s IH]; simpl.
  - constructor; [intros []|constructor].
  - destruct (Ascii.eqb c NL) eqn:E.
    + constructor; [intros []|exact IH].
    + pose proof (split_nl_not_nil s) as Hne.
      destruct (split_nl s) as [|l ls]; [contradiction|].
      inversion IH as [|? ? Hl Hls]; subst. constructor; [|exact Hls].
      intros [->|Hin]; [|exact (Hl Hin)].
      rewrite Ascii.eqb_refl in E. discriminate.
Qed.

Lemma split_nl_line l : ~ In NL l -> split_nl l = [l].
Proof.
  induction l as [|c l IH]; intros H; simpl; [reflexivity|].
  destruct (Ascii.eqb c NL) eqn:E.
  - apply Ascii.eqb_eq in E. subst. contradiction H. left. reflexivity.
  - rewrite IH; [reflexivity|]. intros Hin. apply H. right. exact Hin.
Qed.

Lemma split_nl_app_newline l r :
  ~ In NL l -> split_nl (l ++ NL :: r) = l :: split_nl r.
Proof.
  induction l as [|c l IH]; intros H; simpl.
  - reflexivity.
  - destruct (Ascii.eqb c NL) eqn:E.
    + apply Ascii.eqb_eq in E. subst. contradiction H. left. reflexivity.
    + rewrite IH; [reflexivity|]. intros Hin. apply H. right. exact Hin.
Qed.

(** Splitting a joined list of lines gives the lines back. *)
Lemma split_nl_join_nl ls :
  ls <> [] -> Forall (fun l => ~ In NL l) ls -> split_nl (join_nl ls) = ls.
Proof.
  induction ls as [|l ls IH]; intros Hne H; [contradiction|].
  inversion H as [|? ? Hl Hls]; subst.
  destruct ls as [|l' ls].
  - simpl. apply split_nl_line. exact Hl.
  - change (join_nl (l :: l' :: ls)) with (l ++ NL :: join_nl (l' :: ls)).
    rewrite split_nl_app_newline by exact Hl.
    rewrite IH; [reflexivity|discriminate|exact Hls].
Qed.

Lemma indent_line_no_newline l : ~ In NL l -> ~ In NL (indent_line l).
Proof.
  intros H. unfold indent_line. destruct (truthy (strip l)); [|exact H].
  intros [E|[E|Hin]]; [discriminate E|discriminate E|exact (H Hin)].
Qed.

(** The lines of an indented block are the lines of the block, in
    order; a line with a character that is not whitespace has two spaces
    put in front of it, a line that is empty or all whitespace is kept
    as it is. *)
Lemma indent_block_split block :
  split_nl (indent_block block) = map indented (split_nl block).
Proof.
  unfold indent_block.
  rewrite split_nl_join_nl.
  - apply map_ext. intros line. unfold indent_line, indented.
    rewrite truthy_strip. reflexivity.
  - intros E. apply map_eq_nil in E. exact (split_nl_not_nil block E).
  - apply List.Forall_forall. intros l Hin.
    apply List.in_map_iff in Hin as [l0 [<- Hin]].
    apply indent_line_no_newline.
    pose proof (split_nl_no_newline block) as H.
    rewrite List.Forall_forall in H. exact (H _ Hin).
Qed.

(** ** The top of the output *)

(** The loop over the blocks only ever appends to the text built so
    far. *)
Lemma convert_blocks_appends blocks :
  forall n i acc out,
    convert_blocks n i blocks acc = Val out -> exists rest, out = acc ++ rest.
Proof.
  induction blocks as [|[block|] blocks IH]; intros n i acc out H;
    cbn [convert_blocks] in H.
  - inversion H; subst. exists []. symmetry. apply app_nil_r.
  - destruct (negb (truthy (strip block))
              || negb (startswith (str "export") block)).
    + eapply IH; eassumption.
    + apply IH in H as [rest ->]. eexists. rewrite <- !app_assoc. reflexivity.
  - discriminate H.
Qed.

Lemma lstrip_spaces s :
  exists ws, s = ws ++ lstrip s /\ forallb isspace ws = true.
Proof.
  induction s as [|c s (ws & E & H)]; [exists []; split; reflexivity|].
  cbn [lstrip]. destruct (isspace c) eqn:Ec.
  - exists (c :: ws). cbn [app forallb]. rewrite Ec, H.
    split; [f_equal; exact E|reflexivity].
  - exists []. split; reflexivity.
Qed.

(** [rstrip] takes whitespace from the end and nothing else. *)
Lemma rstrip_spaces s :
  exists ws, s = rstrip s ++ ws /\ forallb isspace ws = true.
Proof.
  unfold rstrip. destruct (lstrip_spaces (rev s)) as (ws & E & H).
  exists (rev ws). split.
  - rewrite <- rev_app_distr, <- E. symmetry. apply rev_involutive.
  - rewrite forallb_forall in *. intros c Hc. apply H.
    apply in_rev. exact Hc.
Qed.

(** ** The matcher *)

Lemma last_of_app prev u v : last_of prev (u ++ v) = last_of (last_of prev u) v.
Proof. unfold last_of. apply fold_left_app. Qed.

Lemma startswith_app l s : startswith l (l ++ s) = true.
Proof.
  induction l as [|a l IH]; simpl; [reflexivity|].
  rewrite Ascii.eqb_refl. exact IH.
Qed.

Lemma startswith_inv l s :
  startswith l s = true -> exists s', s = l ++ s'.
Proof.
  revert s. induction l as [|a l IH]; intros s H.
  - exists s. reflexivity.
  - destruct s as [|b s]; [discriminate H|]. simpl in H.
    apply andb_true_iff in H as [E H]. apply Ascii.eqb_eq in E. subst b.
    apply IH in H as [s' ->]. exists s'. reflexivity.
Qed.

Lemma skipn_length_app {A : Type} (u v : list A) : skipn (length u) (u ++ v) = v.
Proof. induction u as [|a u IH]; simpl; [reflexivity|exact IH]. Qed.

Lemma firstn_length_diff {A : Type} (u v : list A) :
  firstn (length (u ++ v) - length v) (u ++ v) = u.
Proof.
  rewrite length_app. replace (length u + length v - length v) with (length u) by lia.
  induction u as [|a u IH]; simpl; [reflexivity|]. f_equal. exact IH.
Qed.

Section Continuations.
Context {A : Type} (k : option ascii -> text -> groups -> option A).

(** What a successful match of an item tells about the subject and
    about the call of the continuation that succeeded. *)
Lemma match_lit_Some l prev s g a :
  match_lit l k prev s g = Some a ->
  exists s', s = l ++ s' /\ k (last_of prev l) s' g = Some a.
Proof.
  unfold match_lit. destruct (startswith l s) eqn:E; [|discriminate].
  apply startswith_inv in E as [s' ->]. rewrite skipn_length_app.
  intros H. exists s'. split; [reflexivity|exact H].
Qed.

Lemma match_star_Some p s : forall prev g a,
  match_star p k prev s g = Some a ->
  exists u v, s = u ++ v /\ forallb p u = true
              /\ k (last_of prev u) v g = Some a.
Proof.
  induction s as [|c s IH]; intros prev g a H; simpl in H.
  - exists [], []. repeat split. exact H.
  - destruct (p c) eqn:Ec.
    + destruct (match_star p k (Some c) s g) as [a'|] eqn:E.
      * inversion H; subst a'. apply IH in E as (u & v & -> & Hu & Hk).
        exists (c :: u), v. simpl. rewrite Ec. repeat split; assumption.
      * exists [], (c :: s). repeat split. exact H.
    + exists [], (c :: s). repeat split. exact H.
Qed.

Lemma match_plus_Some p prev s g a :
  match_plus p k prev s g = Some a ->
  exists c u v, s = c :: u ++ v /\ p c = true /\ forallb p u = true
                /\ k (last_of prev (c :: u)) v g = Some a.
Proof.
  unfold match_plus. destruct s as [|c s]; [discriminate|].
  destruct (p c) eqn:Ec; [|discriminate]. intros H.
  apply match_star_Some in H as (u & v & -> & Hu & Hk).
  exists c, u, v. repeat split; assumption.
Qed.

(** The greedy items take the whole run of characters of their class
    when what follows matches after it. *)
Lemma match_lit_app l prev s g :
  match_lit l k prev (l ++ s) g = k (last_of prev l) s g.
Proof.
  unfold match_lit. rewrite startswith_app, skipn_length_app. reflexivity.
Qed.

Lemma match_star_run p u : forall prev v g a,
  forallb p u = true ->
  match v with c :: _ => p c = false | [] => True end ->
  k (last_of prev u) v g = Some a ->
  match_star p k prev (u ++ v) g = Some a.
Proof.
  induction u as [|c u IH]; intros prev v g a Hu Hv Hk; simpl in *.
  - destruct v as [|c v]; [exact Hk|]. simpl. rewrite Hv. exact Hk.
  - apply andb_true_iff in Hu as [Hc Hu]. rewrite Hc.
    rewrite (IH (Some c) v g a Hu Hv Hk). reflexivity.
Qed.

Lemma match_plus_run p c u prev v g a :
  p c = true -> forallb p u = true ->
  match v with c :: _ => p c = false | [] => True end ->
  k (last_of prev (c :: u)) v g = Some a ->
  match_plus p k prev (c :: u ++ v) g = Some a.
Proof.
  intros Hc Hu Hv Hk. simpl. rewrite Hc. apply match_star_run; assumption.
Qed.
End Continuations.

(** Without [^] the previous character plays no part. *)
Lemma match_star_prev {A : Type} p (k k' : option ascii -> text -> groups -> option A) s :
  (forall q q' s g, k q s g = k' q' s g) ->
  forall q q' g, match_star p k q s g = match_star p k' q' s g.
Proof.
  intros Hk. induction s as [|c s IH]; intros q q' g; simpl.
  - apply Hk.
  - destruct (p c); [|apply Hk].
    rewrite (IH (Some c) (Some c) g). rewrite (Hk q q'). reflexivity.
Qed.

Lemma rmatch_prev r :
  forall {A : Type} (k k' : option ascii -> text -> groups -> option A),
    bolfree r = true ->
    (forall q q' s g, k q s g = k' q' s g) ->
    forall q q' s g, rmatch r k q s g = rmatch r k' q' s g.
Proof.
  induction r as [|l|p|p|r1 IH1 r2 IH2|r IH|n r IH|r IH];
    intros A k k' Hb Hk q q' s g; simpl in *.
  - discriminate Hb.
  - unfold match_lit. destruct (startswith l s); [apply Hk|reflexivity].
  - apply match_star_prev. exact Hk.
  - unfold match_plus. destruct s as [|c s]; [reflexivity|].
    destruct (p c); [|reflexivity]. apply match_star_prev. exact Hk.
  - apply andb_true_iff in Hb as [Hb1 Hb2].
    apply IH1; [exact Hb1|]. intros. apply IH2; assumption.
  - rewrite (IH A k k' Hb Hk q q' s g), (Hk q q'). reflexivity.
  - apply IH; [exact Hb|]. intros. apply Hk.
  - rewrite (IH groups (fun _ _ g' => Some g') (fun _ _ g' => Some g') Hb
               (fun _ _ _ _ => eq_refl) q q' s g).
    destruct (rmatch r _ q' s g); [apply Hk|reflexivity].
Qed.

Ltac no_some H := destruct H as [? H]; discriminate H.

(** A match with a continuation that succeeds more often succeeds at
    least as often. *)
Lemma match_star_mono {A B : Type} p
    (k : option ascii -> text -> groups -> option A)
    (k' : option ascii -> text -> groups -> option B) s :
  (forall q q' s g, is_Some (k q s g) -> is_Some (k' q' s g)) ->
  forall q q' g, is_Some (match_star p k q s g) ->
                 is_Some (match_star p k' q' s g).
Proof.
  intros Hk. induction s as [|c s IH]; intros q q' g H; simpl in *.
  - eapply Hk; eassumption.
  - destruct (p c); [|eapply Hk; eassumption].
    destruct (match_star p k' (Some c) s g) eqn:E'; [eauto|].
    destruct (match_star p k (Some c) s g) eqn:E.
    + assert (is_Some (match_star p k' (Some c) s g)) as [? Hs]
        by (apply (IH (Some c)); rewrite E; eauto).
      congruence.
    + eapply Hk; eassumption.
Qed.

Lemma rmatch_mono r :
  forall {A B : Type} (k : option ascii -> text -> groups -> option A)
         (k' : option ascii -> text -> groups -> option B),
    bolfree r = true ->
    (forall q q' s g, is_Some (k q s g) -> is_Some (k' q' s g)) ->
    forall q q' s g, is_Some (rmatch r k q s g) -> is_Some (rmatch r k' q' s g).
Proof.
  induction r as [|l|p|p|r1 IH1 r2 IH2|r IH|n r IH|r IH];
    intros A B k k' Hb Hk q q' s g H; simpl in *.
  - discriminate Hb.
  - unfold match_lit in *. destruct (startswith l s); [|no_some H].
    eapply Hk; eassumption.
  - eapply match_star_mono; eassumption.
  - unfold match_plus in *. destruct s as [|c s]; [no_some H|].
    destruct (p c); [|no_some H]. eapply match_star_mono; eassumption.
  - apply andb_true_iff in Hb as [Hb1 Hb2].
    eapply IH1; [exact Hb1| |exact H]. intros. eapply IH2; eassumption.
  - destruct (rmatch r k' q' s g) eqn:E'; [eauto|].
    destruct (rmatch r k q s g) eqn:E.
    + assert (is_Some (rmatch r k' q' s g)) as [? Hs]
        by (eapply IH; [exact Hb|exact Hk|rewrite E; eauto]).
      congruence.
    + eapply Hk; eassumption.
  - eapply IH; [exact Hb| |exact H].
    intros ? ? ? ? H0. cbv beta in *. eapply Hk. exact H0.
  - rewrite <- (rmatch_prev r (fun _ _ g' => Some g') (fun _ _ g' => Some g') Hb
                  (fun _ _ _ _ => eq_refl) q q' s g).
    destruct (rmatch r _ q s g); [|no_some H]. eapply Hk; eassumption.
Qed.

(** ** The split pattern *)

Lemma split_pattern_head : split_pattern = Seq (Lit [NL]) (Look export_head).
Proof. reflexivity. Qed.

Lemma rmatch_export_pattern {A : Type}
    (k : option ascii -> text -> groups -> option A) q s g :
  rmatch export_pattern k q s g
  = rmatch Bol (rmatch export_head (rmatch signature_tail k)) q s g.
Proof. reflexivity. Qed.

Lemma sub_succ_diag n : S n - n = 1.
Proof. lia. Qed.

Lemma startswith_export_firstn n s :
  startswith (str "export") (firstn n (str "async" ++ s)) = false.
Proof. destruct n; reflexivity. Qed.

(** The groups the shared head leaves: none, or group 1 holding a text
    cut from a position that starts with [async]. *)
Lemma export_head_groups q s g :
  rmatch export_head (fun _ _ g' => Some g') q s [] = Some g ->
  startswith (str "export") s = true
  /\ forall t, group 1 g = Some t -> startswith (str "export") t = false.
Proof.
  unfold export_head. cbn [cat rmatch]. intros H.
  apply match_lit_Some in H as (s1 & -> & H).
  split; [apply startswith_app|].
  apply match_plus_Some in H as (c & u & v & -> & _ & _ & H).
  destruct (match_lit (str "async") _ _ v []) as [a|] eqn:E.
  - inversion H; subst a; clear H.
    apply match_lit_Some in E as (s2 & -> & E).
    apply match_plus_Some in E as (c2 & u2 & v2 & -> & _ & _ & E).
    cbv beta in E. apply match_lit_Some in E as (s3 & -> & E).
    injection E as <-.
    intros t Ht. cbn [group Nat.eqb] in Ht. injection Ht as <-.
    apply startswith_export_firstn.
  - apply match_lit_Some in H as (s2 & -> & H). inversion H; subst g.
    intros t Ht. discriminate Ht.
Qed.

(** A match of the split pattern is one newline, in front of a text that
    starts with [export]. *)
Lemma split_pattern_match q s len g :
  match_at split_pattern q s = Some (len, g) ->
  len = 1
  /\ exists s', s = NL :: s' /\ startswith (str "export") s' = true
  /\ forall t, group 1 g = Some t -> startswith (str "export") t = false.
Proof.
  unfold match_at. rewrite split_pattern_head. cbn [rmatch]. intros H.
  apply match_lit_Some in H as (s' & -> & H).
  destruct (rmatch export_head _ _ s' []) as [g'|] eqn:E; [|discriminate H].
  inversion H; subst; clear H. split; [apply sub_succ_diag|].
  exists s'. apply export_head_groups in E as [E1 E2]. auto.
Qed.

Lemma split_pattern_consumes q s len g :
  match_at split_pattern q s = Some (len, g) -> len <> 0.
Proof. intros H. apply split_pattern_match in H as [-> _]. discriminate. Qed.

(** Where the export pattern matches, the split pattern matches on the
    newline put in front. *)
Lemma export_match_split q s :
  is_Some (match_at export_pattern q s) ->
  forall q', exists g, match_at split_pattern q' (NL :: s) = Some (1, g).
Proof.
  unfold match_at. rewrite rmatch_export_pattern. cbn [rmatch].
  destruct (at_bol q); [|intros H; no_some H]. intros H q'.
  assert (is_Some (rmatch export_head (fun _ _ g' => Some g') (Some NL) s []))
    as [g Hg].
  { eapply rmatch_mono; [reflexivity| |exact H]. intros. eauto. }
  exists g. rewrite split_pattern_head. cbn [rmatch].
  change (NL :: s) with ([NL] ++ s). rewrite match_lit_app.
  change (last_of q' [NL]) with (Some NL). rewrite Hg.
  cbn [length app]. rewrite sub_succ_diag. reflexivity.
Qed.

(** ** Scanning with the split pattern *)

Lemma scan_split_ind (P : option ascii -> text -> list found * text -> Prop) :
  (forall q, P q [] ([], [])) ->
  (forall q s g,
      match_at split_pattern q (NL :: s) = Some (1, g) ->
      startswith (str "export") s = true ->
      (forall t, group 1 g = Some t -> startswith (str "export") t = false) ->
      P (Some NL) s (scan split_pattern (Some NL) s 0) ->
      P q (NL :: s)
        (Found [] [NL] g :: fst (scan split_pattern (Some NL) s 0),
         snd (scan split_pattern (Some NL) s 0))) ->
  (forall q c s,
      match_at split_pattern q (c :: s) = None ->
      P (Some c) s (scan split_pattern (Some c) s 0) ->
      P q (c :: s) (push c (scan split_pattern (Some c) s 0))) ->
  forall s q, P q s (scan split_pattern q s 0).
Proof.
  intros Hnil Hmatch Hskip. induction s as [|c s IH]; intros q.
  - cbn [scan]. destruct (match_at split_pattern q []) as [[len g]|] eqn:E.
    + apply split_pattern_match in E as (_ & s' & E & _). discriminate E.
    + apply Hnil.
  - cbn [scan]. destruct (match_at split_pattern q (c :: s)) as [[len g]|] eqn:E.
    + pose proof E as E'.
      apply split_pattern_match in E' as (-> & s' & Es & He & Hg).
      inversion Es; subst c s'; clear Es. cbn [firstn].
      apply Hmatch; auto.
    + apply Hskip; auto.
Qed.

Lemma pieces_push c r :
  pieces (push c r) = (c :: hd [] (pieces r)) :: tl (pieces r).
Proof. destruct r as [[|f fs] t]; reflexivity. Qed.

Lemma pieces_not_nil r : pieces r <> [].
Proof. unfold pieces. destruct (map gap (fst r)); discriminate. Qed.

Lemma join_nl_cons l ls :
  ls <> [] -> join_nl (l :: ls) = l ++ NL :: join_nl ls.
Proof. destruct ls; [contradiction|reflexivity]. Qed.

(** The pieces, joined by newlines, are the subject. *)
Lemma scan_split_join s q : join_nl (pieces (scan split_pattern q s 0)) = s.
Proof.
  revert s q. apply (scan_split_ind (fun q s r => join_nl (pieces r) = s)).
  - reflexivity.
  - intros q s g _ _ _ IH.
    change (pieces _) with ([] :: pieces (scan split_pattern (Some NL) s 0)).
    rewrite join_nl_cons by apply pieces_not_nil. rewrite IH. reflexivity.
  - intros q c s _ IH. rewrite pieces_push.
    pose proof (pieces_not_nil (scan split_pattern (Some c) s 0)) as Hne.
    destruct (pieces (scan split_pattern (Some c) s 0)) as [|p ps];
      [contradiction|].
    cbn [hd tl]. destruct ps as [|p' ps].
    + simpl in *. congruence.
    + rewrite join_nl_cons in * by discriminate.
      rewrite <- IH. reflexivity.
Qed.

(** The first piece starts as the subject does, as far as that has no
    newline. *)
Lemma scan_split_first l : ~ In NL l ->
  forall s q, startswith l s = true ->
              startswith l (hd [] (pieces (scan split_pattern q s 0))) = true.
Proof.
  intros Hl s q. revert s q l Hl. apply (scan_split_ind
    (fun q s r => forall l, ~ In NL l -> startswith l s = true ->
                            startswith l (hd [] (pieces r)) = true)).
  - intros q l _ H. exact H.
  - intros q s g _ _ _ _ l Hl H. destruct l as [|a l]; [reflexivity|].
    simpl in H. apply andb_true_iff in H as [E _]. apply Ascii.eqb_eq in E.
    subst a. contradiction Hl. left. reflexivity.
  - intros q c s _ IH l Hl H. rewrite pieces_push. cbn [hd].
    destruct l as [|a l]; [reflexivity|]. simpl in H |- *.
    apply andb_true_iff in H as [E H]. rewrite E. simpl.
    apply IH; [|exact H]. intros Hin. apply Hl. right. exact Hin.
Qed.

Lemma export_no_newline : ~ In NL (str "export").
Proof.
  simpl. intros H. repeat (destruct H as [H|H]; [discriminate H|]). exact H.
Qed.

(** Every piece after the first starts with [export]. *)
Lemma scan_split_later s q :
  Forall (fun b => startswith (str "export") b = true)
         (tl (pieces (scan split_pattern q s 0))).
Proof.
  revert s q. apply (scan_split_ind (fun q s r =>
    Forall (fun b => startswith (str "export") b = true) (tl (pieces r)))).
  - constructor.
  - intros q s g _ He _ IH.
    change (pieces _) with ([] :: pieces (scan split_pattern (Some NL) s 0)).
    cbn [tl].
    pose proof (scan_split_first _ export_no_newline s (Some NL) He) as H1.
    destruct (pieces (scan split_pattern (Some NL) s 0)) as [|p ps];
      constructor; assumption.
  - intros q c s _ IH. rewrite pieces_push. exact IH.
Qed.

(** Group 1 of a match never starts with [export]. *)
Lemma scan_split_groups s q :
  Forall (fun f => forall t, group 1 (caps f) = Some t ->
                             startswith (str "export") t = false)
         (fst (scan split_pattern q s 0)).
Proof.
  revert s q. apply (scan_split_ind (fun q s r =>
    Forall (fun f => forall t, group 1 (caps f) = Some t ->
                               startswith (str "export") t = false) (fst r))).
  - constructor.
  - intros q s g _ _ Hg IH. constructor; assumption.
  - intros q c s _ IH.
    destruct (scan split_pattern (Some c) s 0) as [[|f fs] t]; [constructor|].
    inversion IH; subst. constructor; assumption.
Qed.

(** ** The loop over the function blocks *)

Lemma push_length c r : length (fst (push c r)) = length (fst r).
Proof. destruct r as [[|f fs] t]; reflexivity. Qed.

Lemma search_from_start r s :
  forall q i m, search_from r q s i = Some m -> i <= m_start m.
Proof.
  induction s as [|c s IH]; intros q i m H; cbn [search_from] in H.
  - destruct (match_at r q []) as [[? ?]|]; [|discriminate H].
    inversion H; subst. cbn. lia.
  - destruct (match_at r q (c :: s)) as [[? ?]|].
    + inversion H; subst. cbn. lia.
    + apply IH in H. lia.
Qed.

(** Where [re.search] finds its match the pattern matches, with the
    groups of the match object, and the scan of the whole subject finds
    as many matches as the scan from there. *)
Lemma search_from_match r s :
  forall q i m,
    search_from r q s i = Some m ->
    exists q' len,
      match_at r q' (skipn (m_start m - i) s) = Some (len, m_groups m)
      /\ length (fst (scan r q s 0))
         = length (fst (scan r q' (skipn (m_start m - i) s) 0)).
Proof.
  induction s as [|c s IH]; intros q i m H; cbn [search_from] in H.
  - destruct (match_at r q []) as [[len g]|] eqn:E; [|discriminate H].
    inversion H; subst m; clear H. cbn [m_start m_groups].
    rewrite Nat.sub_diag. exists q, len. cbn [skipn]. rewrite E. eauto.
  - destruct (match_at r q (c :: s)) as [[len g]|] eqn:E.
    + inversion H; subst m; clear H. cbn [m_start m_groups].
      rewrite Nat.sub_diag. exists q, len. cbn [skipn]. rewrite E. eauto.
    + pose proof (search_from_start _ _ _ _ _ H) as Hle.
      apply IH in H as (q' & len & H & Hlen).
      exists q', len.
      replace (m_start m - i) with (S (m_start m - S i)) by lia.
      cbn [skipn scan]. rewrite E, push_length. split; assumption.
Qed.

Lemma export_match_startswith q s :
  is_Some (match_at export_pattern q s) -> startswith (str "export") s = true.
Proof.
  intros H. destruct (export_match_split q s H None) as [g Hg].
  apply split_pattern_match in Hg as (_ & s' & E & He & _).
  inversion E; subst s'. exact He.
Qed.

(** A block that starts with [export] passes the filter of the loop; the
    empty text and the text of group 1 do not. *)
Lemma filter_export block :
  startswith (str "export") block = true ->
  negb (truthy (strip block)) || negb (startswith (str "export") block) = false.
Proof.
  intros H. rewrite H, truthy_strip.
  apply startswith_inv in H as [s' ->]. reflexivity.
Qed.

Lemma filter_other block :
  startswith (str "export") block = false ->
  negb (truthy (strip block)) || negb (startswith (str "export") block) = true.
Proof. intros H. rewrite H. apply orb_true_r. Qed.

Lemma length_flat_map_pair {A B : Type} (a b : A -> B) (l : list A) :
  length (flat_map (fun x => [a x; b x]) l) = 2 * length l.
Proof. induction l as [|x l IH]; simpl; [reflexivity|]. rewrite IH. lia. Qed.

Lemma convert_blocks_pieces n fs last :
  forall i acc,
    i + 2 * length fs + 1 = n ->
    Forall (fun f => startswith (str "export") (gap f) = true) fs ->
    Forall (fun f => forall t, group 1 (caps f) = Some t ->
                               startswith (str "export") t = false) fs ->
    startswith (str "export") last = true ->
    convert_blocks n i
      (flat_map (fun f => [Some (gap f); group 1 (caps f)]) fs ++ [Some last])
      acc
    = if forallb has_group1 fs
      then Val (acc
                ++ flat_map (fun b => rstrip (method_block b) ++ str "," ++ [NL])
                            (map gap fs)
                ++ method_block last ++ [NL])
      else Exc AttributeError.
Proof.
  induction fs as [|f fs IH]; intros i acc Hn Hgap Hgrp Hlast.
  - cbn [flat_map app convert_blocks forallb map].
    rewrite (filter_export _ Hlast).
    replace (i <? n - 1) with false
      by (symmetry; apply Nat.ltb_ge; simpl in Hn; lia).
    reflexivity.
  - apply List.Forall_cons_iff in Hgap as [Hf Hgap'].
    apply List.Forall_cons_iff in Hgrp as [Hg Hgrp'].
    cbn [flat_map app convert_blocks forallb map].
    rewrite (filter_export _ Hf).
    replace (i <? n - 1) with true
      by (symmetry; apply Nat.ltb_lt; simpl in Hn; lia).
    unfold has_group1 at 1.
    destruct (group 1 (caps f)) as [t|] eqn:Et; [|reflexivity].
    rewrite (filter_other _ (Hg t eq_refl)). cbn [andb].
    rewrite (IH (S (S i)) _); [|simpl in *; lia|assumption..].
    destruct (forallb has_group1 fs); [|reflexivity].
    f_equal. unfold method_block. rewrite <- !app_assoc. reflexivity.
Qed.

(** The blocks that [re.split] gives for the text from the first export
    on: the empty text and group 1 of the first match, then the pieces
    of the text, each but the last followed by group 1 of the next
    match. *)
Lemma re_split_remaining q s :
  is_Some (match_at export_pattern q s) ->
  exists g0,
    re_split split_pattern (NL :: s)
    = Some [] :: group 1 g0
      :: flat_map (fun f => [Some (gap f); group 1 (caps f)])
                  (fst (scan split_pattern (Some NL) s 0))
      ++ [Some (snd (scan split_pattern (Some NL) s 0))]
    /\ forall t, group 1 g0 = Some t -> startswith (str "export") t = false.
Proof.
  intros H. destruct (export_match_split q s H None) as [g0 Hg].
  exists g0. split.
  - unfold re_split. cbn [scan]. rewrite Hg.
    destruct (scan split_pattern (Some NL) s 0) as [fs t]. reflexivity.
  - apply split_pattern_match in Hg as (_ & s' & _ & _ & Hg). exact Hg.
Qed.

Lemma Forall_pieces (P : text -> Prop) r :
  Forall P (pieces r) -> Forall (fun f => P (gap f)) (fst r) /\ P (snd r).
Proof.
  unfold pieces. intros H. apply List.Forall_app in H as [H1 H2]. split.
  - apply List.Forall_forall. intros f Hf.
    rewrite List.Forall_forall in H1. apply H1. apply List.in_map. exact Hf.
  - inversion H2; assumption.
Qed.

Lemma scan_split_blocks q s :
  startswith (str "export") s = true ->
  Forall (fun b => startswith (str "export") b = true)
         (pieces (scan split_pattern q s 0)).
Proof.
  intros H.
  pose proof (scan_split_first _ export_no_newline s q H) as H1.
  pose proof (scan_split_later s q) as H2.
  pose proof (pieces_not_nil (scan split_pattern q s 0)) as Hne.
  destruct (pieces (scan split_pattern q s 0)); [contradiction|].
  constructor; assumption.
Qed.

(** The text the loop builds, for the text [s] from the first export
    on. *)
Lemma convert_blocks_remaining q s acc :
  is_Some (match_at export_pattern q s) ->
  let function_blocks := re_split split_pattern (NL :: s) in
  let r := scan split_pattern (Some NL) s 0 in
  forall out,
    convert_blocks (length function_blocks) 0 function_blocks acc = Val out ->
    out = acc
          ++ flat_map (fun b => rstrip (method_block b) ++ str "," ++ [NL])
                      (map gap (fst r))
          ++ method_block (snd r) ++ [NL].
Proof.
  intros H function_blocks r out.
  destruct (re_split_remaining q s H) as (g0 & Hsplit & Hg0).
  subst function_blocks. rewrite Hsplit. fold r.
  pose proof (scan_split_blocks (Some NL) s (export_match_startswith q s H))
    as Hb.
  fold r in Hb. apply Forall_pieces in Hb as [Hgaps Hlast].
  pose proof (scan_split_groups s (Some NL)) as Hgrp. fold r in Hgrp.
  cbn [convert_blocks]. rewrite (filter_other []) by reflexivity.
  destruct (group 1 g0) as [t0|] eqn:E0; [|discriminate].
  rewrite (filter_other _ (Hg0 t0 eq_refl)).
  rewrite (convert_blocks_pieces _ (fst r) (snd r) 2 acc);
    [|cbn [length]; rewrite length_app, length_flat_map_pair; cbn [length]; lia
     |assumption..].
  destruct (forallb has_group1 (fst r)); [|discriminate].
  intros Ho. inversion Ho. reflexivity.
Qed.

(** ** Every export has its block *)

(** The scan with the export pattern finds at most one match more than
    the scan with the split pattern finds newlines to split at: a match
    of the export pattern other than at the very start stands behind
    such a newline. *)
Lemma scan_export_le_split s :
  forall q q' skip,
    length (fst (scan export_pattern q s skip))
    <= (match skip, match_at export_pattern q s with
        | 0, Some _ => 1
        | _, _ => 0
        end)
       + length (fst (scan split_pattern q' s 0)).
Proof.
  induction s as [|c s IH]; intros q q' skip.
  - destruct skip; cbn [scan]; [|simpl; lia].
    destruct (match_at export_pattern q []) as [[len g]|]; simpl; lia.
  - assert (forall n,
              length (fst (scan export_pattern (Some c) s n))
              <= length (fst (scan split_pattern q' (c :: s) 0))) as Hstep.
    { intros n. specialize (IH (Some c) (Some c) n).
      cbn [scan].
      destruct (match_at export_pattern (Some c) s) as [mg|] eqn:Em.
      - assert (is_Some (match_at export_pattern (Some c) s)) as Hm
          by (rewrite Em; eauto).
        assert (c = NL) as ->.
        { unfold match_at in Em. rewrite rmatch_export_pattern in Em.
          cbn [rmatch at_bol] in Em.
          destruct (Ascii.eqb c NL) eqn:Ec; [|discriminate Em].
          apply Ascii.eqb_eq. exact Ec. }
        destruct (export_match_split _ _ Hm q') as [g' ->].
        cbn [fst length]. destruct n; cbn beta iota in IH; lia.
      - destruct (match_at split_pattern q' (c :: s)) as [[len g']|] eqn:Es.
        + apply split_pattern_match in Es as (-> & _). cbn [fst length].
          destruct n; cbn beta iota in IH; lia.
        + rewrite push_length. destruct n; cbn beta iota in IH; lia. }
    set (X := length (fst (scan split_pattern q' (c :: s) 0))) in *.
    destruct skip as [|n]; cbn [scan].
    + destruct (match_at export_pattern q (c :: s)) as [[len g]|] eqn:E.
      * cbn [fst length].
        destruct len as [|n]; [rewrite push_length|];
          match goal with |- S (length (fst (scan _ _ _ ?k))) <= _ =>
            specialize (Hstep k) end; cbn beta iota; lia.
      * rewrite push_length. specialize (Hstep 0). cbn beta iota. lia.
    + specialize (Hstep n). cbn beta iota. lia.
Qed.

(** ** The text written *)

(** What the converter writes when it returns: the header, then the
    method block of every function block, each but the last with its
    trailing whitespace removed and a comma put behind it, then the
    closing line.  The function blocks are the text from the first
    export on, cut in front of every line that starts with
    [export\s+(async\s+)?function]; there are at least as many of them
    as the export pattern has matches. *)
Lemma convert_service_file_output filepath service_name w content w' b :
  read_file filepath w = (w, Val content) ->
  findall export_pattern content <> [] ->
  convert_service_file filepath service_name w = (w', Val b) ->
  exists m blocks last,
    search export_pattern content = Some m
    /\ blocks ++ [last]
       = pieces (scan split_pattern (Some NL) (skipn (m_start m) content) 0)
    /\ join_nl (blocks ++ [last]) = skipn (m_start m) content
    /\ Forall (fun block => startswith (str "export") block = true)
              (blocks ++ [last])
    /\ length (findall export_pattern content) <= length (blocks ++ [last])
    /\ files w' !! filepath
       = Some (translate_newlines (os w)
                 (header (rstrip (firstn (m_start m) content)) service_name
                  ++ flat_map (fun block => rstrip (method_block block)
                                            ++ str "," ++ [NL]) blocks
                  ++ method_block last ++ [NL]
                  ++ str "};" ++ [NL])).
Proof.
  intros Hf Hne H.
  destruct (search export_pattern content) as [m|] eqn:Hs;
    [|apply findall_nil_search_None in Hs; contradiction].
  rewrite (convert_service_file_exports _ _ _ _ _ Hf Hs) in H.
  destruct (convert_blocks _ _ _ _) as [out|e] eqn:Hb; [|discriminate H].
  destruct (search_from_match _ _ _ _ _ Hs) as (q & len & Hm' & Hlen).
  rewrite Nat.sub_0_r in Hm', Hlen.
  assert (is_Some (match_at export_pattern q (skipn (m_start m) content)))
    as Hm by (rewrite Hm'; eauto).
  apply (convert_blocks_remaining q) in Hb; [|exact Hm].
  set (r := scan split_pattern (Some NL) (skipn (m_start m) content) 0) in *.
  exists m, (map gap (fst r)), (snd r). split; [reflexivity|].
  split; [reflexivity|].
  split; [apply scan_split_join|].
  split; [apply scan_split_blocks, (export_match_startswith q), Hm|].
  split.
  - unfold findall, finditer. rewrite length_map, Hlen.
    rewrite length_app, length_map. cbn [length].
    pose proof (scan_export_le_split (skipn (m_start m) content) q (Some NL) 0)
      as Hle.
    fold r in Hle. destruct (match_at export_pattern q _); lia.
  - inversion H; subst; clear H. cbn [files]. rewrite lookup_insert_eq.
    f_equal. f_equal. rewrite <- !app_assoc. reflexivity.
Qed.

(** ** The indentation of the blocks written *)

(** C7: when the converter has rewritten a file, the text it wrote is
    the header, one piece for every function block and the closing
    line, with every newline written as the platform's line separator.
    The function blocks are the pieces that the split pattern cuts the
    text from the first match on into.  The piece for the last function
    block is its method block: the lines of the block after the two
    rewritings, in order, each line that has a character other than
    whitespace with two spaces put in front of it and every other line
    as it is.  The piece for every other function block is its method
    block without the whitespace at its end, so without its blank last
    lines and without the whitespace that ends its last other line, and
    a comma. *)
Theorem method_blocks_indented filepath service_name w content w' b :
  read_file filepath w = (w, Val content) ->
  findall export_pattern content <> [] ->
  convert_service_file filepath service_name w = (w', Val b) ->
  exists m blocks last,
    search export_pattern content = Some m
    /\ blocks ++ [last]
       = pieces (scan split_pattern (Some NL) (skipn (m_start m) content) 0)
    /\ files w' !! filepath
       = Some (translate_newlines (os w)
                 (header (rstrip (firstn (m_start m) content)) service_name
                  ++ flat_map (fun block => rstrip (method_block block)
                                            ++ str "," ++ [NL]) blocks
                  ++ method_block last ++ [NL]
                  ++ str "};" ++ [NL]))
    /\ Forall (fun block =>
                 split_nl (method_block block)
                 = map indented
                       (split_nl (function_to_method (remove_export block))))
              (blocks ++ [last])
    /\ Forall (fun block =>
                 exists ws,
                   forallb isspace ws = true
                   /\ method_block block = rstrip (method_block block) ++ ws)
              blocks.
Proof.
  intros Hf Hne H.
  destruct (convert_service_file_output filepath service_name w content w' b
              Hf Hne H) as (m & blocks & last & Hs & Hp & _ & _ & _ & Hw).
  exists m, blocks, last.
  split; [exact Hs|]. split; [exact Hp|]. split; [exact Hw|]. split.
  - apply List.Forall_forall. intros block _. apply indent_block_split.
  - apply List.Forall_forall. intros block _.
    destruct (rstrip_spaces (method_block block)) as (ws & E & Hws).
    exists ws. split; [exact Hws|exact E].
Qed.

Lemma method_blocks_indented_witness :
  exists m blocks last,
    search export_pattern async_pair = Some m
    /\ blocks ++ [last]
       = pieces (scan split_pattern (Some NL) (skipn (m_start m) async_pair) 0)
    /\ files (fst (convert_service_file "a.js" "svc"
                     (World Windows {["a.js"%string := async_pair]} [])))
         !! "a.js"%string
       = Some (translate_newlines Windows
                 (header (rstrip (firstn (m_start m) async_pair)) "svc"
                  ++ flat_map (fun block => rstrip (method_block block)
                                            ++ str "," ++ [NL]) blocks
                  ++ method_block last ++ [NL]
                  ++ str "};" ++ [NL]))
    /\ Forall (fun block =>
                 split_nl (method_block block)
                 = map indented
                       (split_nl (function_to_method (remove_export block))))
              (blocks ++ [last])
    /\ Forall (fun block =>
                 exists ws,
                   forallb isspace ws = true
                   /\ method_block block = rstrip (method_block block) ++ ws)
              blocks.
Proof.
  refine (method_blocks_indented "a.js" "svc"
            (World Windows {["a.js"%string := async_pair]} [])
            async_pair _ true _ _ _).
  - vm_compute. reflexivity.
  - vm_compute. discriminate.
  - vm_compute. reflexivity.
Defined.

(** Without the removal of the whitespace the statement of C7 fails.
    In the text [blank_between] the first function block ends with a
    newline, so its method block has an empty second line; the text
    written has the comma right behind the first line, and the empty
    line is gone. *)
Lemma method_blocks_indented_counterexample :
  pieces (scan split_pattern (Some NL) blank_between 0)
  = [str "export async function f() {}" ++ [NL];
     str "export async function g() {}"]
  /\ split_nl (method_block (str "export async function f() {}" ++ [NL]))
     = [str "  async f() {}"; []]
  /\ convert_service_file "a.js" "svc"
       (World Posix {["a.js"%string := blank_between]} [])
     = (World Posix
              {["a.js"%string :=
                  [NL; NL] ++ str "export const svc = {" ++ [NL]
                  ++ str "  async f() {}," ++ [NL]
                  ++ str "  async g() {}" ++ [NL]
                  ++ str "};" ++ [NL]]}
              [FoundExports 2 "svc"; Converted "svc"],
        Val true)
  /\ ~ (forall filepath service_name w content w' b,
          read_file filepath w = (w, Val content) ->
          findall export_pattern content <> [] ->
          convert_service_file filepath service_name w = (w', Val b) ->
          exists m blocks last,
            search export_pattern content = Some m
            /\ blocks ++ [last]
               = pieces (scan split_pattern (Some NL)
                           (skipn (m_start m) content) 0)
            /\ files w' !! filepath
               = Some (translate_newlines (os w)
                         (header (rstrip (firstn (m_start m) content))
                                 service_name
                          ++ flat_map (fun block => method_block block
                                                    ++ str "," ++ [NL]) blocks
                          ++ method_block last ++ [NL]
                          ++ str "};" ++ [NL]))).
Proof.
  split; [vm_compute; reflexivity|]. split; [vm_compute; reflexivity|].
  split; [vm_compute; reflexivity|].
  intros H.
  destruct (H "a.js"%string "svc"%string
              (World Posix {["a.js"%string := blank_between]} [])
              blank_between
              (fst (convert_service_file "a.js" "svc"
                      (World Posix {["a.js"%string := blank_between]} [])))
              true)
    as (m & blocks & last & Hs & Hp & Hw).
  - vm_compute. reflexivity.
  - vm_compute. discriminate.
  - vm_compute. reflexivity.
  - vm_compute in Hs. injection Hs as <-. cbn [m_start] in Hp, Hw.
    assert (pieces (scan split_pattern (Some NL) (skipn 0 blank_between) 0)
            = [str "export async function f() {}" ++ [NL]]
              ++ [str "export async function g() {}"]) as E
      by (vm_compute; reflexivity).
    rewrite E in Hp. apply app_inj_tail in Hp as [-> ->].
    vm_compute in Hw. discriminate Hw.
Qed.

(** ** Substitution *)

Lemma re_sub_scan r repl s : re_sub r repl s = replaced repl (scan r None s 0).
Proof. unfold re_sub, replaced. destruct (scan r None s 0). reflexivity. Qed.

Lemma replaced_push repl c r : replaced repl (push c r) = c :: replaced repl r.
Proof. destruct r as [[|f fs] t]; reflexivity. Qed.

Lemma scan_skip r u :
  forall q v, scan r q (u ++ v) (length u) = scan r (last_of q u) v 0.
Proof.
  induction u as [|c u IH]; intros q v; [reflexivity|].
  cbn [app length scan]. apply IH.
Qed.

(** A match at the head of the subject is replaced by the template, and
    the scan goes on behind it. *)
Lemma replaced_match r repl q m v g :
  m <> [] ->
  match_at r q (m ++ v) = Some (length m, g) ->
  replaced repl (scan r q (m ++ v) 0)
  = expand repl g ++ replaced repl (scan r (last_of q m) v 0).
Proof.
  intros Hm H. destruct m as [|c u]; [contradiction|].
  cbn [app] in *. cbn [scan]. rewrite H. cbn [length].
  rewrite scan_skip. unfold replaced. cbn [fst snd flat_map gap caps app].
  rewrite <- app_assoc. reflexivity.
Qed.

(** A character at which the pattern does not match is kept. *)
Lemma replaced_nomatch r repl q c s :
  match_at r q (c :: s) = None ->
  replaced repl (scan r q (c :: s) 0)
  = c :: replaced repl (scan r (Some c) s 0).
Proof. intros H. cbn [scan]. rewrite H. apply replaced_push. Qed.

Lemma length_app_diff {A : Type} (u v : list A) :
  length (u ++ v) - length v = length u.
Proof. rewrite length_app. lia. Qed.

(** ** The two classes *)

Lemma word_not_space c : isword c = true -> isspace c = false.
Proof.
  destruct c as [[] [] [] [] [] [] [] []]; intros H;
    solve [reflexivity | discriminate H].
Qed.

Lemma space_not_word c : isspace c = true -> isword c = false.
Proof.
  intros H. destruct (isword c) eqn:E; [|reflexivity].
  apply word_not_space in E. congruence.
Qed.

Lemma space_not_e c : isspace c = true -> c <> "e"%char.
Proof. intros H ->. discriminate H. Qed.

Lemma word_not_bol c : isword c = true -> at_bol (Some c) = false.
Proof.
  intros H. cbn [at_bol]. destruct (Ascii.eqb c NL) eqn:E; [|reflexivity].
  apply Ascii.eqb_eq in E. subst c. discriminate H.
Qed.

(** ** [^export\s+] *)

Lemma export_prefix_match q s len g :
  match_at export_prefix_pattern q s = Some (len, g) ->
  at_bol q = true
  /\ exists c s', s = str "export" ++ c :: s' /\ isspace c = true.
Proof.
  unfold match_at, export_prefix_pattern. cbn [cat rmatch]. intros H.
  destruct (at_bol q); [|discriminate H]. split; [reflexivity|].
  apply match_lit_Some in H as (s1 & -> & H).
  apply match_plus_Some in H as (c & u & v & -> & Hc & _ & _).
  exists c, (u ++ v). split; [reflexivity|exact Hc].
Qed.

Lemma export_prefix_match_run q ws v :
  at_bol q = true -> ws <> [] -> forallb isspace ws = true ->
  match v with c :: _ => isspace c = false | [] => True end ->
  match_at export_prefix_pattern q ((str "export" ++ ws) ++ v)
  = Some (length (str "export" ++ ws), []).
Proof.
  intros Hq Hne Hws Hv. destruct ws as [|c u]; [contradiction|].
  cbn [forallb] in Hws. apply andb_true_iff in Hws as [Hc Hu].
  unfold match_at, export_prefix_pattern. cbn [cat rmatch]. rewrite Hq.
  rewrite <- app_assoc. rewrite match_lit_app. cbn [app].
  apply match_plus_run; try assumption.
  f_equal. f_equal.
  change (str "export" ++ c :: u ++ v) with (str "export" ++ (c :: u) ++ v).
  rewrite app_assoc. apply length_app_diff.
Qed.

Lemma export_prefix_consumes q s len g :
  match_at export_prefix_pattern q s = Some (len, g) -> len <> 0.
Proof.
  unfold match_at, export_prefix_pattern. cbn [cat rmatch]. intros H.
  destruct (at_bol q); [|discriminate H].
  apply match_lit_Some in H as (s1 & -> & H).
  apply match_plus_Some in H as (c & u & v & -> & _ & _ & H).
  injection H as <- _. rewrite length_app. lia.
Qed.

(** Characters other than [e] are kept by the removal of [export]. *)
Lemma remove_export_keeps u :
  Forall (fun c => c <> "e"%char) u ->
  forall q v,
    replaced [] (scan export_prefix_pattern q (u ++ v) 0)
    = u ++ replaced [] (scan export_prefix_pattern (last_of q u) v 0).
Proof.
  induction u as [|c u IH]; intros Hu q v; [reflexivity|].
  apply List.Forall_cons_iff in Hu as [Hc Hu]. cbn [app].
  rewrite replaced_nomatch.
  - rewrite (IH Hu). reflexivity.
  - destruct (match_at export_prefix_pattern q (c :: u ++ v)) as [[len g]|] eqn:E;
      [|reflexivity].
    apply export_prefix_match in E as (_ & c' & s' & E & _).
    inversion E. congruence.
Qed.

(** Word characters behind a word character are kept as well: they are
    not at the start of a line. *)
Lemma remove_export_keeps_word u :
  forall c0 v,
    isword c0 = true -> forallb isword u = true ->
    replaced [] (scan export_prefix_pattern (Some c0) (u ++ v) 0)
    = u ++ replaced [] (scan export_prefix_pattern (last_of (Some c0) u) v 0).
Proof.
  induction u as [|c u IH]; intros c0 v H0 Hu; [reflexivity|].
  cbn [forallb] in Hu. apply andb_true_iff in Hu as [Hc Hu]. cbn [app].
  rewrite replaced_nomatch.
  - rewrite (IH c v Hc Hu). reflexivity.
  - destruct (match_at export_prefix_pattern (Some c0) (c :: u ++ v))
      as [[len g]|] eqn:E; [|reflexivity].
    apply export_prefix_match in E as (E & _).
    rewrite (word_not_bol _ H0) in E. discriminate E.
Qed.

(** The run of word characters at the head of a text is determined by
    the text. *)
Lemma word_run_unique a :
  forall b x y,
    forallb isword a = true -> forallb isword b = true ->
    match x with c :: _ => isword c = false | [] => True end ->
    match y with c :: _ => isword c = false | [] => True end ->
    a ++ x = b ++ y -> a = b /\ x = y.
Proof.
  induction a as [|c a IH]; intros [|c' b] x y Ha Hb Hx Hy E;
    cbn [app forallb] in *.
  - split; [reflexivity|exact E].
  - subst x. apply andb_true_iff in Hb as [Hc _]. congruence.
  - subst y. apply andb_true_iff in Ha as [Hc _]. congruence.
  - apply andb_true_iff in Ha as [_ Ha]. apply andb_true_iff in Hb as [_ Hb].
    injection E as -> E. destruct (IH b x y Ha Hb Hx Hy E) as [-> ->].
    split; reflexivity.
Qed.

Lemma head_not_word ws rest :
  forallb isspace ws = true ->
  match ws ++ str "(" ++ rest with
  | c :: _ => isword c = false
  | [] => True
  end.
Proof.
  destruct ws as [|c ws]; intros H; [reflexivity|].
  cbn [forallb] in H. apply andb_true_iff in H as [H _].
  apply space_not_word. exact H.
Qed.

(** At the head of a function name [^export\s+] matches only when the
    name is [export], at the start of a line and followed by
    whitespace. *)
Lemma export_prefix_nomatch_name q name ws4 rest :
  forallb isword name = true -> forallb isspace ws4 = true ->
  ~ (name = str "export" /\ at_bol q = true /\ ws4 <> []) ->
  match_at export_prefix_pattern q (name ++ ws4 ++ str "(" ++ rest) = None.
Proof.
  intros Hname Hws4 Hnot.
  destruct (match_at export_prefix_pattern q _) as [[len g]|] eqn:E;
    [|reflexivity].
  apply export_prefix_match in E as (Hq & c & s' & E & Hc).
  apply word_run_unique in E as [-> E];
    [|assumption|reflexivity|apply head_not_word; assumption
     |apply space_not_word; assumption].
  contradiction Hnot. repeat split; [assumption|].
  intros ->. cbn [app] in E. injection E as <- _. discriminate Hc.
Qed.

(** ** [^(async\s+)?function\s+(\w+)\s*\(] *)

Ltac norm_app := repeat (progress (cbn [app]; rewrite <- ?app_assoc)).

Lemma firstn_diff_eq {A : Type} (s u v : list A) :
  s = u ++ v -> firstn (length s - length v) s = u.
Proof. intros ->. apply firstn_length_diff. Qed.

Lemma length_diff_eq {A : Type} (s u v : list A) :
  s = u ++ v -> length s - length v = length u.
Proof. intros ->. apply length_app_diff. Qed.

(** The pattern matches a signature without [async] ... *)
Lemma function_pattern_match_plain ws3 name ws4 rest :
  ws3 <> [] -> forallb isspace ws3 = true ->
  name <> [] -> forallb isword name = true ->
  forallb isspace ws4 = true ->
  match_at function_pattern None
    ((str "function" ++ ws3 ++ name ++ ws4 ++ str "(") ++ rest)
  = Some (length (str "function" ++ ws3 ++ name ++ ws4 ++ str "("),
          [(2, name)]).
Proof.
  intros Hne3 H3 Hnen Hn H4.
  destruct ws3 as [|c3 u3]; [contradiction|].
  destruct name as [|c4 u4]; [contradiction|].
  cbn [forallb] in H3, Hn.
  apply andb_true_iff in H3 as [Hc3 Hu3]. apply andb_true_iff in Hn as [Hc4 Hu4].
  unfold match_at, function_pattern. cbn [cat rmatch at_bol].
  rewrite <- !app_assoc.
  rewrite match_lit_app. cbn [app].
  apply match_plus_run; try assumption; [apply word_not_space; assumption|].
  apply match_plus_run; try assumption; [apply head_not_word; assumption|].
  apply match_star_run; try assumption; [reflexivity|].
  rewrite match_lit_app. f_equal. f_equal.
  - apply length_diff_eq. norm_app. reflexivity.
  - f_equal. f_equal. apply firstn_diff_eq. reflexivity.
Qed.

(** ... and a signature with [async]. *)
Lemma function_pattern_match_async ws2 ws3 name ws4 rest :
  ws2 <> [] -> forallb isspace ws2 = true ->
  ws3 <> [] -> forallb isspace ws3 = true ->
  name <> [] -> forallb isword name = true ->
  forallb isspace ws4 = true ->
  match_at function_pattern None
    (((str "async" ++ ws2) ++ str "function" ++ ws3 ++ name ++ ws4 ++ str "(")
     ++ rest)
  = Some (length ((str "async" ++ ws2)
                  ++ str "function" ++ ws3 ++ name ++ ws4 ++ str "("),
          [(2, name); (1, str "async" ++ ws2)]).
Proof.
  intros Hne2 H2 Hne3 H3 Hnen Hn H4.
  destruct ws2 as [|c2 u2]; [contradiction|].
  destruct ws3 as [|c3 u3]; [contradiction|].
  destruct name as [|c4 u4]; [contradiction|].
  cbn [forallb] in H2, H3, Hn.
  apply andb_true_iff in H2 as [Hc2 Hu2].
  apply andb_true_iff in H3 as [Hc3 Hu3]. apply andb_true_iff in Hn as [Hc4 Hu4].
  unfold match_at, function_pattern. cbn [cat rmatch at_bol].
  rewrite <- !app_assoc.
  rewrite match_lit_app. cbn [app].
  erewrite match_plus_run; [reflexivity|assumption..|reflexivity|].
  cbv beta. rewrite match_lit_app.
  apply match_plus_run; try assumption; [apply word_not_space; assumption|].
  apply match_plus_run; try assumption; [apply head_not_word; assumption|].
  apply match_star_run; try assumption; [reflexivity|].
  rewrite match_lit_app. f_equal. f_equal.
  - apply length_diff_eq. norm_app. reflexivity.
  - f_equal.
    + f_equal. apply firstn_diff_eq. reflexivity.
    + f_equal. f_equal. apply firstn_diff_eq. norm_app. reflexivity.
Qed.

(** ** The signature of a function block *)

Lemma spaces_no_e ws :
  forallb isspace ws = true -> Forall (fun c => c <> "e"%char) ws.
Proof.
  induction ws as [|c ws IH]; intros H; [constructor|].
  cbn [forallb] in H. apply andb_true_iff in H as [Hc H].
  constructor; [apply space_not_e; exact Hc|apply IH; exact H].
Qed.

Lemma at_bol_last q x ws :
  ws <> [] -> at_bol (last_of q (x ++ ws)) = true -> exists ws', ws = ws' ++ [NL].
Proof.
  intros Hne H. destruct (exists_last Hne) as (ws' & c & ->).
  exists ws'. f_equal. rewrite app_assoc, last_of_app in H.
  cbn [last_of fold_left at_bol] in H. apply Ascii.eqb_eq in H.
  subst c. reflexivity.
Qed.

Lemma async_marker_no_e marker :
  async_marker marker -> Forall (fun c => c <> "e"%char) marker.
Proof.
  intros [->|(ws2 & _ & H & ->)]; [constructor|].
  apply List.Forall_app. split; [|apply spaces_no_e; exact H].
  repeat constructor; discriminate.
Qed.

Lemma async_marker_head marker s :
  async_marker marker ->
  match marker ++ str "function" ++ s with
  | c :: _ => isspace c = false
  | [] => True
  end.
Proof. intros [->|(ws2 & _ & _ & ->)]; reflexivity. Qed.

(** The removal of [export] takes the keyword and the whitespace behind
    it from the head of the block and leaves the signature as it is. *)
Lemma remove_export_signature ws1 marker ws3 name ws4 rest :
  ws1 <> [] -> forallb isspace ws1 = true ->
  async_marker marker ->
  ws3 <> [] -> forallb isspace ws3 = true ->
  name <> [] -> forallb isword name = true ->
  forallb isspace ws4 = true ->
  ~ (name = str "export" /\ (exists ws, ws3 = ws ++ [NL]) /\ ws4 <> []) ->
  exists rest1,
    remove_export (str "export" ++ ws1 ++ marker ++ str "function" ++ ws3
                   ++ name ++ ws4 ++ str "(" ++ rest)
    = (marker ++ str "function" ++ ws3 ++ name ++ ws4 ++ str "(") ++ rest1.
Proof.
  intros Hne1 H1 Hm Hne3 H3 Hnen Hn H4 Hnot.
  unfold remove_export. rewrite re_sub_scan.
  rewrite (app_assoc (str "export") ws1).
  rewrite (replaced_match export_prefix_pattern [] None (str "export" ++ ws1) _ []);
    [|destruct ws1; discriminate
     |apply export_prefix_match_run;
      [reflexivity|assumption|assumption|apply async_marker_head; assumption]].
  cbn [expand flat_map app].
  set (q1 := last_of None (str "export" ++ ws1)).
  rewrite (app_assoc marker), (app_assoc (marker ++ str "function")).
  rewrite (remove_export_keeps ((marker ++ str "function") ++ ws3)).
  2:{ apply List.Forall_app. split; [|apply spaces_no_e; assumption].
      apply List.Forall_app. split; [apply async_marker_no_e; assumption|].
      repeat constructor; discriminate. }
  set (q2 := last_of q1 ((marker ++ str "function") ++ ws3)).
  destruct name as [|c4 u4] eqn:En; [contradiction|]. rewrite <- En in *.
  assert (match_at export_prefix_pattern q2 (name ++ ws4 ++ str "(" ++ rest)
          = None) as Hnone.
  { apply export_prefix_nomatch_name; try assumption.
    intros (E1 & E2 & E3). apply Hnot. repeat split; try assumption.
    apply (at_bol_last q1 (marker ++ str "function")); assumption. }
  rewrite En in Hnone |- *. cbn [app] in Hnone |- *.
  rewrite (replaced_nomatch _ _ _ _ _ Hnone).
  rewrite En in Hn. cbn [forallb] in Hn. apply andb_true_iff in Hn as [Hc4 Hu4].
  rewrite (remove_export_keeps_word u4 c4 _ Hc4 Hu4).
  rewrite (app_assoc ws4).
  rewrite (remove_export_keeps (ws4 ++ str "(")).
  2:{ apply List.Forall_app. split; [apply spaces_no_e; assumption|].
      repeat constructor; discriminate. }
  eexists. norm_app. reflexivity.
Qed.

(** C6: in a function block that starts with a signature of the export
    pattern ([export], whitespace, an optional [async] and whitespace,
    [function], whitespace, a name, optional whitespace and an opening
    parenthesis) the two rewritings replace the signature by the async
    marker, kept as it is, the name and the parenthesis: neither
    [export] nor [function] stands in front of the name any more.  The
    only signature excluded is one whose name is the word [export]
    itself, at the start of a line and followed by whitespace. *)
Theorem signature_rewritten ws1 marker ws3 name ws4 rest :
  ws1 <> [] -> forallb isspace ws1 = true ->
  async_marker marker ->
  ws3 <> [] -> forallb isspace ws3 = true ->
  name <> [] -> forallb isword name = true ->
  forallb isspace ws4 = true ->
  ~ (name = str "export" /\ (exists ws, ws3 = ws ++ [NL]) /\ ws4 <> []) ->
  exists rest',
    function_to_method
      (remove_export (str "export" ++ ws1 ++ marker ++ str "function" ++ ws3
                      ++ name ++ ws4 ++ str "(" ++ rest))
    = marker ++ name ++ str "(" ++ rest'.
Proof.
  intros Hne1 H1 Hm Hne3 H3 Hnen Hn H4 Hnot.
  destruct (remove_export_signature ws1 marker ws3 name ws4 rest)
    as [rest1 ->]; try assumption.
  unfold function_to_method. rewrite re_sub_scan.
  destruct Hm as [->|(ws2 & Hne2 & H2 & ->)].
  - cbn [app].
    rewrite (replaced_match function_pattern method_template None _ _
               [(2, name)]);
      [|discriminate|apply function_pattern_match_plain; assumption].
    eexists. cbn [expand method_template flat_map group Nat.eqb default app].
    rewrite app_nil_r, <- app_assoc. reflexivity.
  - rewrite (replaced_match function_pattern method_template None _ _
               [(2, name); (1, str "async" ++ ws2)]);
      [|discriminate|apply function_pattern_match_async; assumption].
    eexists. cbn [expand method_template flat_map group Nat.eqb default].
    rewrite app_nil_r, <- !app_assoc. reflexivity.
Qed.

Lemma signature_rewritten_witness :
  exists rest',
    function_to_method
      (remove_export (str "export" ++ str " " ++ (str "async" ++ str " ")
                      ++ str "function" ++ str " " ++ str "bar" ++ []
                      ++ str "(" ++ str ") { return 2; }"))
    = (str "async" ++ str " ") ++ str "bar" ++ str "(" ++ rest'.
Proof.
  refine (signature_rewritten (str " ") (str "async" ++ str " ") (str " ")
            (str "bar") [] (str ") { return 2; }") _ _ _ _ _ _ _ _ _).
  - discriminate.
  - reflexivity.
  - right. exists (str " "). repeat split. discriminate.
  - discriminate.
  - reflexivity.
  - discriminate.
  - reflexivity.
  - reflexivity.
  - intros (E & _). discriminate E.
Defined.

(** Without the exclusion the statement of C6 fails.  The text
    [export async function\nexport (x) {}] has one match of the export
    pattern, with the name [export]; the removal of [export] deletes the
    name with the keyword in front of it, the function pattern matches
    no more, and the method block written is [async function\n(x) {}],
    indented. *)
Lemma signature_rewritten_counterexample :
  findall export_pattern export_named = [(str "async ", str "export")]
  /\ convert_service_file "a.js" "aService"
       (World Posix {["a.js"%string := export_named]} [])
     = (World Posix
              {["a.js"%string :=
                  [NL; NL] ++ str "export const aService = {" ++ [NL]
                  ++ str "  async function" ++ [NL]
                  ++ str "  (x) {}" ++ [NL]
                  ++ str "};" ++ [NL]]}
              [FoundExports 1 "aService"; Converted "aService"],
        Val true)
  /\ ~ (forall ws1 marker ws3 name ws4 rest,
          ws1 <> [] -> forallb isspace ws1 = true ->
          async_marker marker ->
          ws3 <> [] -> forallb isspace ws3 = true ->
          name <> [] -> forallb isword name = true ->
          forallb isspace ws4 = true ->
          exists rest',
            function_to_method
              (remove_export (str "export" ++ ws1 ++ marker ++ str "function"
                              ++ ws3 ++ name ++ ws4 ++ str "(" ++ rest))
            = marker ++ name ++ str "(" ++ rest').
Proof.
  split; [vm_compute; reflexivity|]. split; [vm_compute; reflexivity|].
  intros H.
  destruct (H (str " ") (str "async" ++ str " ") [NL] (str "export") (str " ")
              (str "x) {}")) as [rest' E].
  - discriminate.
  - reflexivity.
  - right. exists (str " "). repeat split. discriminate.
  - discriminate.
  - reflexivity.
  - discriminate.
  - reflexivity.
  - reflexivity.
  - vm_compute in E. discriminate E.
Qed.

(** ** Exported functions that are not async *)

(** C2: on the scenario of the description ([foo] not async, [bar]
    async, object name [svc]) [re.split] returns [None] for the group of
    [foo]; the loop raises [AttributeError] at [block.strip()] and the
    file is not rewritten. *)
Theorem scenario_raises :
  re_split split_pattern (NL :: scenario)
  = [Some []; None; Some (str "export function foo() { return 1; }");
     Some (str "async ");
     Some (str "export async function bar() { return 2; }")]
  /\ forall p,
       convert_service_file "svc.js" "svc"
         (World p {["svc.js"%string := scenario]} [])
       = (World p {["svc.js"%string := scenario]} [FoundExports 2 "svc"],
          Exc AttributeError).
Proof. split; [|intros []]; vm_compute; reflexivity. Qed.

(** C1: a file with one exported function that is not async has one
    match of the export pattern, and the converter raises
    [AttributeError] on it and writes nothing. *)
Theorem plain_export_raises :
  length (findall export_pattern plain_export) = 1
  /\ forall p,
       convert_service_file "a.js" "aService"
         (World p {["a.js"%string := plain_export]} [])
       = (World p {["a.js"%string := plain_export]}
                [FoundExports 1 "aService"],
          Exc AttributeError).
Proof. split; [|intros []]; vm_compute; reflexivity. Qed.

(** C4: the file [mixed_exports] has two matches of the export pattern,
    the first behind the import line and an empty line.  The converter
    raises [AttributeError] on it and leaves the file as it was: no text
    is written that begins with the import line, an empty line and the
    opening line of the object literal. *)
Theorem preamble_not_written :
  length (findall export_pattern mixed_exports) = 2
  /\ (exists m,
        search export_pattern mixed_exports = Some m
        /\ firstn (m_start m) mixed_exports
           = str "import x from 'y';" ++ [NL; NL])
  /\ forall p,
       convert_service_file "a.js" "svc"
         (World p {["a.js"%string := mixed_exports]} [])
       = (World p {["a.js"%string := mixed_exports]} [FoundExports 2 "svc"],
          Exc AttributeError)
       /\ ~ exists rest,
            files (fst (convert_service_file "a.js" "svc"
                          (World p {["a.js"%string := mixed_exports]} [])))
              !! "a.js"%string
            = Some (translate_newlines p
                      (str "import x from 'y';" ++ [NL; NL]
                       ++ str "export const svc = {" ++ [NL] ++ rest)).
Proof.
  split; [vm_compute; reflexivity|]. split.
  - eexists. split; vm_compute; reflexivity.
  - intros p. split; [destruct p; vm_compute; reflexivity|].
    intros [rest H]. destruct p; vm_compute in H; discriminate H.
Qed.

(** C5: the file [async_then_plain] has two exported functions.  The
    split gives [None] behind the block of the first; the loop raises
    [AttributeError] there, and the file is left as it was: no method
    block and no comma are written. *)
Theorem comma_not_written :
  length (findall export_pattern async_then_plain) = 2
  /\ re_split split_pattern (NL :: async_then_plain)
     = [Some []; Some (str "async ");
        Some (str "export async function a() {}");
        None; Some (str "export function b() {}")]
  /\ forall p,
       convert_service_file "a.js" "svc"
         (World p {["a.js"%string := async_then_plain]} [])
       = (World p {["a.js"%string := async_then_plain]}
                [FoundExports 2 "svc"],
          Exc AttributeError).
Proof.
  split; [vm_compute; reflexivity|]. split; [vm_compute; reflexivity|].
  intros []; vm_compute; reflexivity.
Qed.

(** A match of the export pattern without the async group: the split
    pattern, on the newline put in front, matches without that group as
    well. *)
Lemma export_plain_split q s len g :
  match_at export_pattern q s = Some (len, g) ->
  group 1 g = None ->
  forall q', match_at split_pattern q' (NL :: s) = Some (1, []).
Proof.
  unfold match_at at 1. rewrite rmatch_export_pattern. cbn [rmatch].
  destruct (at_bol q); [|discriminate]. unfold export_head, signature_tail.
  cbn [cat rmatch]. intros H Hg q'.
  apply match_lit_Some in H as (s1 & -> & H).
  apply match_plus_Some in H as (c & u & v & -> & Hc & Hu & H).
  destruct (match_lit (str "async") _ _ v []) as [a|] eqn:EG.
  - exfalso. injection H as ->.
    apply match_lit_Some in EG as (s2 & -> & EG).
    apply match_plus_Some in EG as (c2 & u2 & v2 & -> & _ & _ & EG).
    cbv beta in EG. apply match_lit_Some in EG as (s3 & -> & EG).
    apply match_plus_Some in EG as (c3 & u3 & v3 & -> & _ & _ & EG).
    apply match_plus_Some in EG as (c4 & u4 & v4 & -> & _ & _ & EG).
    cbv beta in EG. apply match_star_Some in EG as (u5 & v5 & -> & _ & EG).
    apply match_lit_Some in EG as (s6 & -> & EG).
    injection EG as _ <-. discriminate Hg.
  - apply match_lit_Some in H as (s3 & -> & _).
    unfold match_at. rewrite split_pattern_head. cbn [rmatch].
    change (NL :: ?x) with ([NL] ++ x). rewrite match_lit_app.
    unfold export_head. cbn [cat rmatch]. rewrite match_lit_app.
    erewrite match_plus_run; [|exact Hc|exact Hu|reflexivity|].
    + cbn [length app]. rewrite sub_succ_diag. reflexivity.
    + replace (match_lit (str "async") _ _ (str "function" ++ s3) [])
        with (@None groups) by reflexivity.
      rewrite match_lit_app. reflexivity.
Qed.

(** A file whose first exported function is not async is never
    converted: the call raises [AttributeError] and writes nothing. *)
Lemma first_plain_export_raises filepath service_name w content m :
  read_file filepath w = (w, Val content) ->
  search export_pattern content = Some m ->
  group 1 (m_groups m) = None ->
  convert_service_file filepath service_name w
  = (World (os w) (files w)
           (stdout w ++ [FoundExports (length (findall export_pattern content))
                                      service_name]),
     Exc AttributeError).
Proof.
  intros Hf Hs Hg.
  rewrite (convert_service_file_exports _ _ _ _ _ Hf Hs).
  destruct (search_from_match _ _ _ _ _ Hs) as (q & len & Hm & _).
  rewrite Nat.sub_0_r in Hm.
  unfold re_split. cbn [scan].
  rewrite (export_plain_split _ _ _ _ Hm Hg None).
  destruct (scan split_pattern (Some NL) (skipn (m_start m) content) 0)
    as [fs t].
  cbn [fst snd flat_map gap caps ngroups split_pattern cat seq map group app].
  cbn [convert_blocks]. rewrite (filter_other []) by reflexivity.
  reflexivity.
Qed.

(** The split pattern asks for less than the export pattern: a line
    that starts with [export async function*] has no match of the export
    pattern but gets a block, and its [function] keyword stays. *)
Lemma generator_export_extra_block :
  length (findall export_pattern generator_export) = 1
  /\ convert_service_file "a.js" "aService"
       (World Posix {["a.js"%string := generator_export]} [])
     = (World Posix
              {["a.js"%string :=
                  [NL; NL] ++ str "export const aService = {" ++ [NL]
                  ++ str "  async a() {}," ++ [NL]
                  ++ str "  async function* g() {}" ++ [NL]
                  ++ str "};" ++ [NL]]}
              [FoundExports 1 "aService"; Converted "aService"],
        Val true).
Proof. split; vm_compute; reflexivity. Qed.

(** ** No pattern of the script matches the empty text *)

Lemma match_star_calls {A : Type} p
    (k : option ascii -> text -> groups -> option A) s :
  forall q g a,
    match_star p k q s g = Some a ->
    exists q' s' g', k q' s' g' = Some a /\ length s' <= length s.
Proof.
  induction s as [|c s IH]; intros q g a H; cbn [match_star] in H.
  - eauto 6.
  - destruct (p c); [|eauto 6].
    destruct (match_star p k (Some c) s g) as [a'|] eqn:E; [|eauto 6].
    injection H as ->. apply IH in E as (q' & s' & g' & E & Hle).
    exists q', s', g'. split; [exact E|cbn [length]; lia].
Qed.

(** The continuation is only ever called on a rest of the subject. *)
Lemma rmatch_calls r :
  forall {A : Type} (k : option ascii -> text -> groups -> option A) q s g a,
    rmatch r k q s g = Some a ->
    exists q' s' g', k q' s' g' = Some a /\ length s' <= length s.
Proof.
  induction r as [|l|p|p|r1 IH1 r2 IH2|r IH|n r IH|r IH];
    intros A k q s g a H; cbn [rmatch] in H.
  - destruct (at_bol q); [eauto 6|discriminate H].
  - apply match_lit_Some in H as (s' & -> & H).
    exists (last_of q l), s', g. split; [exact H|]. rewrite length_app. lia.
  - eapply match_star_calls; eassumption.
  - apply match_plus_Some in H as (c & u & v & -> & _ & _ & H).
    exists (last_of q (c :: u)), v, g. split; [exact H|].
    cbn [length]. rewrite length_app. lia.
  - apply IH1 in H as (q1 & s1 & g1 & H & Hle1).
    apply IH2 in H as (q2 & s2 & g2 & H & Hle2).
    exists q2, s2, g2. split; [exact H|lia].
  - destruct (rmatch r k q s g) as [a'|] eqn:E; [|eauto 6].
    injection H as ->. eapply IH; eassumption.
  - apply IH in H as (q' & s' & g' & H & Hle). eauto 6.
  - destruct (rmatch r _ q s g) as [g'|]; [eauto 6|discriminate H].
Qed.

Ltac len_app :=
  repeat (rewrite length_app in * ); cbn [length] in *;
  repeat (rewrite length_app in * ); lia.

Lemma export_pattern_consumes q s len g :
  match_at export_pattern q s = Some (len, g) -> len <> 0.
Proof.
  unfold match_at, export_pattern. cbn [cat rmatch]. intros H.
  destruct (at_bol q); [|discriminate H].
  apply match_lit_Some in H as (s1 & -> & H).
  apply match_plus_Some in H as (c & u & v & -> & _ & _ & H).
  destruct (match_lit (str "async") _ _ v []) as [a|] eqn:E.
  - injection H as ->. apply match_lit_Some in E as (s2 & -> & E).
    apply rmatch_calls with (r := Plus isspace) in E
      as (q' & s' & g' & E & Hle).
    cbv beta in E. apply match_lit_Some in E as (s3 & -> & E).
    apply rmatch_calls with
      (r := cat [Plus isspace; Group 2 (Plus isword); Star isspace;
                 Lit (str "(")]) in E as (q4 & s4 & g4 & E & Hle4).
    injection E as <- _. len_app.
  - apply match_lit_Some in H as (s3 & -> & H).
    apply rmatch_calls with
      (r := cat [Plus isspace; Group 2 (Plus isword); Star isspace;
                 Lit (str "(")]) in H as (q4 & s4 & g4 & H & Hle4).
    injection H as <- _. len_app.
Qed.

Lemma function_pattern_consumes q s len g :
  match_at function_pattern q s = Some (len, g) -> len <> 0.
Proof.
  unfold match_at, function_pattern. cbn [cat rmatch]. intros H.
  destruct (at_bol q); [|discriminate H].
  destruct (match_lit (str "async") _ _ s []) as [a|] eqn:E.
  - injection H as ->. apply match_lit_Some in E as (s2 & -> & E).
    apply rmatch_calls with (r := Plus isspace) in E
      as (q' & s' & g' & E & Hle).
    cbv beta in E. apply match_lit_Some in E as (s3 & -> & E).
    apply rmatch_calls with
      (r := cat [Plus isspace; Group 2 (Plus isword); Star isspace;
                 Lit (str "(")]) in E as (q4 & s4 & g4 & E & Hle4).
    injection E as <- _. len_app.
  - apply match_lit_Some in H as (s3 & -> & H).
    apply rmatch_calls with
      (r := cat [Plus isspace; Group 2 (Plus isword); Star isspace;
                 Lit (str "(")]) in H as (q4 & s4 & g4 & H & Hle4).
    injection H as <- _. len_app.
Qed.

(** * Further properties *)

(** ** Which files a call changes *)

Lemma convert_service_file_files filepath service_name w w' o :
  convert_service_file filepath service_name w = (w', o) ->
  files w' = files w
  \/ (o = Val true /\ exists new, files w' = <[filepath := new]> (files w)).
Proof.
  intros H.
  destruct (convert_service_file_cases filepath w)
    as [Hf|[(content & Hf & Hs)|(content & m & Hf & Hs)]].
  - rewrite (convert_service_file_missing _ _ _ Hf) in H.
    inversion H; subst. left. reflexivity.
  - rewrite (convert_service_file_no_exports _ _ _ _ Hf Hs) in H.
    inversion H; subst. left. reflexivity.
  - rewrite (convert_service_file_exports _ _ _ _ _ Hf Hs) in H.
    destruct (convert_blocks _ _ _ _); inversion H; subst; clear H;
      cbn [files]; [right|left; reflexivity].
    split; [reflexivity|]. eexists. reflexivity.
Qed.

Lemma convert_keeps_other_files filepath service_name w w' o :
  convert_service_file filepath service_name w = (w', o) ->
  forall path, path <> filepath -> files w' !! path = files w !! path.
Proof.
  intros H path Hp.
  destruct (convert_service_file_files _ _ _ _ _ H) as [E|[_ [new E]]];
    rewrite E; [reflexivity|].
  apply lookup_insert_ne. congruence.
Qed.

(** X1: a call of [convert_service_file] changes the files only when it
    returns [True], and then only the file it was called on. *)
Theorem convert_changes_only_its_file filepath service_name w w' o :
  convert_service_file filepath service_name w = (w', o) ->
  (o <> Val true -> files w' = files w)
  /\ forall path, path <> filepath -> files w' !! path = files w !! path.
Proof.
  intros H.
  destruct (convert_service_file_files _ _ _ _ _ H) as [E|[Ho [new E]]];
    rewrite E; split; try reflexivity.
  - intros Hn. contradiction.
  - intros path Hp. apply lookup_insert_ne. congruence.
Qed.

Lemma convert_changes_only_its_file_witness :
  (Val true <> Val true ->
   files (fst (convert_service_file "a.js" "svc" sample_world))
   = files sample_world)
  /\ forall path, path <> "a.js"%string ->
       files (fst (convert_service_file "a.js" "svc" sample_world)) !! path
       = files sample_world !! path.
Proof.
  refine (convert_changes_only_its_file "a.js" "svc" sample_world _
            (Val true) _).
  vm_compute. reflexivity.
Defined.

(** ** The batch *)

(** One turn of the loop of [main], by cases. *)
Lemma convert_entry_run services_dir filename service_name w :
  convert_entry services_dir (filename, service_name) w
  = match files w !! path_join services_dir filename with
    | None =>
        (World (os w) (files w)
               (stdout w ++ [FileNotFound (path_join services_dir filename)]),
         Val tt)
    | Some _ =>
        match convert_service_file (path_join services_dir filename)
                service_name w with
        | (w1, Val _) => (w1, Val tt)
        | (w1, Exc e) =>
            (World (os w1) (files w1)
                   (stdout w1 ++ [ErrorConverting filename e]),
             Val tt)
        end
    end.
Proof.
  unfold convert_entry, bind, path_exists, try_except, print.
  destruct (files w !! path_join services_dir filename) as [content|] eqn:Hf.
  - rewrite bool_decide_true by eauto.
    destruct (convert_service_file _ _ w) as [w1 [b|e]]; reflexivity.
  - rewrite bool_decide_false by (intros [? ?]; discriminate). reflexivity.
Qed.

Lemma for_each_cons services_dir entry entries w :
  for_each services_dir (entry :: entries) w
  = match convert_entry services_dir entry w with
    | (w1, Val _) => for_each services_dir entries w1
    | (w1, Exc e) => (w1, Exc e)
    end.
Proof. reflexivity. Qed.

Lemma for_each_only_listed services_dir entries path :
  Forall (fun entry => path <> path_join services_dir (fst entry)) entries ->
  forall w, files (fst (for_each services_dir entries w)) !! path
            = files w !! path.
Proof.
  induction entries as [|[filename service_name] entries IH]; intros H w.
  - reflexivity.
  - apply List.Forall_cons_iff in H as [Hp H]. cbn [fst] in Hp.
    rewrite for_each_cons, convert_entry_run.
    destruct (files w !! path_join services_dir filename) as [content|] eqn:Hf.
    + destruct (convert_service_file _ _ w) as [w1 o] eqn:Hc.
      pose proof (convert_keeps_other_files _ _ _ _ _ Hc) as Hk. clear Hc.
      rename Hk into Hc.
      destruct o as [b|e]; rewrite (IH H); cbn [files]; apply Hc; exact Hp.
    + rewrite (IH H). reflexivity.
Qed.

(** X2: [main] leaves every file alone that is not one of the listed
    files in the services directory. *)
Theorem main_changes_only_listed_files script_dir w path :
  Forall (fun entry => path <> path_join (services_dir_of script_dir) (fst entry))
         services_to_convert ->
  files (fst (main script_dir w)) !! path = files w !! path.
Proof. intros H. unfold main. apply for_each_only_listed. exact H. Qed.

Lemma main_changes_only_listed_files_witness :
  files (fst (main "" sample_world)) !! "a.js"%string
  = files sample_world !! "a.js"%string.
Proof.
  refine (main_changes_only_listed_files "" sample_world "a.js" _).
  repeat (constructor; [discriminate|]). constructor.
Defined.

Lemma for_each_idle services_dir p fs entries :
  Forall (fun entry =>
            forall stored,
              fs !! path_join services_dir (fst entry) = Some stored ->
              findall export_pattern (universal_newlines stored) = [])
         entries ->
  forall out,
    for_each services_dir entries (World p fs out)
    = (World p fs (out ++ map (idle_report services_dir fs) entries), Val tt).
Proof.
  induction entries as [|[filename service_name] entries IH]; intros H out.
  - cbn [map]. rewrite app_nil_r. reflexivity.
  - apply List.Forall_cons_iff in H as [Hp H]. cbn [fst] in Hp.
    rewrite for_each_cons, convert_entry_run. cbn [os files stdout].
    cbn [map]. unfold idle_report at 1. cbn [fst].
    destruct (fs !! path_join services_dir filename) as [stored|] eqn:Hf.
    + rewrite (convert_service_file_no_exports _ _ _ (universal_newlines stored));
        [|apply read_file_stored; exact Hf|apply Hp; reflexivity].
      cbn [os files stdout]. rewrite (IH H). rewrite <- app_assoc.
      reflexivity.
    + rewrite (IH H). rewrite <- app_assoc. reflexivity.
Qed.

(** X3: when every listed file is missing or has no match of the export
    pattern, [main] changes no file and prints one line per entry, in
    the order of the list: not found for a missing file, no exports
    found for the others. *)
Theorem main_nothing_to_convert script_dir w :
  Forall (fun entry =>
            forall content,
              read_file (path_join (services_dir_of script_dir) (fst entry)) w
              = (w, Val content) ->
              findall export_pattern content = []) services_to_convert ->
  main script_dir w
  = (World (os w) (files w)
           (stdout w ++ map (idle_report (services_dir_of script_dir) (files w))
                            services_to_convert),
     Val tt).
Proof.
  intros H. unfold main. destruct w as [p fs out]. cbn [os files stdout].
  apply for_each_idle.
  apply List.Forall_forall. intros entry Hin stored Hf.
  rewrite List.Forall_forall in H. apply (H entry Hin).
  apply read_file_stored. exact Hf.
Qed.

Lemma main_nothing_to_convert_witness :
  main "" sample_world
  = (World (os sample_world) (files sample_world)
           (stdout sample_world
            ++ map (idle_report (services_dir_of "") (files sample_world))
                   services_to_convert),
     Val tt).
Proof.
  refine (main_nothing_to_convert "" sample_world _).
  repeat (constructor; [intros content Hc; vm_compute in Hc; discriminate Hc|]).
  constructor.
Defined.

(** What a call on an existing file prints, for each of its outcomes. *)
Lemma convert_service_file_prints filepath service_name w content w' o :
  read_file filepath w = (w, Val content) ->
  convert_service_file filepath service_name w = (w', o) ->
  let n := length (findall export_pattern content) in
  stdout w'
  = stdout w
    ++ match o with
       | Val false => [NoExportsFound filepath]
       | Val true => [FoundExports n service_name; Converted service_name]
       | Exc _ => [FoundExports n service_name]
       end.
Proof.
  intros Hf H n.
  destruct (search export_pattern content) as [m|] eqn:Hs.
  - rewrite (convert_service_file_exports _ _ _ _ _ Hf Hs) in H.
    destruct (convert_blocks _ _ _ _); inversion H; subst; clear H;
      cbn [stdout]; rewrite <- ?app_assoc; reflexivity.
  - apply findall_nil_search_None in Hs.
    rewrite (convert_service_file_no_exports _ _ _ _ Hf Hs) in H.
    inversion H; subst. reflexivity.
Qed.

Lemma convert_entry_closing services_dir filename service_name w :
  exists new ev,
    stdout (fst (convert_entry services_dir (filename, service_name) w))
    = stdout w ++ new
    /\ List.filter is_closing new = [ev]
    /\ closes services_dir (filename, service_name) ev
    /\ snd (convert_entry services_dir (filename, service_name) w) = Val tt.
Proof.
  rewrite convert_entry_run. unfold closes. cbn [fst snd].
  destruct (files w !! path_join services_dir filename) as [stored|] eqn:Hf.
  - destruct (convert_service_file _ _ w) as [w1 o] eqn:Hc.
    pose proof (convert_service_file_prints _ _ _ _ _ _
                  (read_file_stored _ _ _ Hf) Hc) as Hp.
    cbv zeta in Hp. destruct o as [[|]|e]; cbn [fst snd stdout]; rewrite Hp.
    + eexists _, _. split; [reflexivity|]. split; [reflexivity|].
      split; [|reflexivity]. eauto.
    + eexists _, _. split; [reflexivity|]. split; [reflexivity|].
      split; [|reflexivity]. eauto.
    + rewrite <- app_assoc. eexists _, _. split; [reflexivity|].
      split; [reflexivity|]. split; [|reflexivity]. eauto 6.
  - cbn [fst snd stdout]. eexists _, _. split; [reflexivity|].
    split; [reflexivity|]. split; [|reflexivity]. eauto 6.
Qed.

Lemma for_each_closing services_dir entries :
  forall w, exists new,
    stdout (fst (for_each services_dir entries w)) = stdout w ++ new
    /\ Forall2 (closes services_dir) entries (List.filter is_closing new).
Proof.
  induction entries as [|[filename service_name] entries IH]; intros w.
  - exists []. split; [symmetry; apply app_nil_r|constructor].
  - rewrite for_each_cons.
    destruct (convert_entry_closing services_dir filename service_name w)
      as (new1 & ev & Hout & Hfil & Hcl & Hval).
    destruct (convert_entry services_dir (filename, service_name) w)
      as [w1 o]. cbn [fst snd] in *. subst o.
    destruct (IH w1) as (new2 & Hout2 & Hall).
    exists (new1 ++ new2). split.
    + rewrite Hout2, Hout. symmetry. apply app_assoc.
    + rewrite List.filter_app, Hfil. constructor; assumption.
Qed.

(** X4: of the lines [main] prints, leaving out the lines [Found n
    exports], there is exactly one for every entry of the list, in the
    order of the list: no exports found, converted, error, or file not
    found, each naming that entry. *)
Theorem main_reports_every_entry script_dir w :
  exists new,
    stdout (fst (main script_dir w)) = stdout w ++ new
    /\ Forall2 (closes (services_dir_of script_dir)) services_to_convert
               (List.filter is_closing new).
Proof. unfold main. apply for_each_closing. Qed.

(** ** When the converter raises *)

(** In front of [export\s+function] the split pattern matches without
    its group ... *)
Lemma split_match_plain q v :
  plain_function_line v -> match_at split_pattern q (NL :: v) = Some (1, []).
Proof.
  intros (ws & t & Hne & Hws & ->).
  destruct ws as [|c u]; [contradiction|]. cbn [forallb] in Hws.
  apply andb_true_iff in Hws as [Hc Hu].
  unfold match_at. rewrite split_pattern_head. cbn [rmatch].
  change (NL :: ?x) with ([NL] ++ x). rewrite match_lit_app.
  unfold export_head. cbn [cat rmatch]. rewrite match_lit_app. cbn [app].
  erewrite match_plus_run; [|exact Hc|exact Hu|reflexivity|].
  - cbn [length app]. rewrite sub_succ_diag. reflexivity.
  - replace (match_lit (str "async") _ _ (str "function" ++ t) [])
      with (@None groups) by reflexivity.
    rewrite match_lit_app. reflexivity.
Qed.

(** ... and only there. *)
Lemma split_match_group_none q v len g :
  match_at split_pattern q (NL :: v) = Some (len, g) ->
  group 1 g = None -> plain_function_line v.
Proof.
  unfold match_at. rewrite split_pattern_head. cbn [rmatch]. intros H Hg.
  apply match_lit_Some in H as (s' & E & H). injection E as <-.
  destruct (rmatch export_head _ _ v []) as [g'|] eqn:EL; [|discriminate H].
  injection H as _ <-. unfold export_head in EL. cbn [cat rmatch] in EL.
  apply match_lit_Some in EL as (s1 & -> & EL).
  apply match_plus_Some in EL as (c & u & v1 & -> & Hc & Hu & EL).
  destruct (match_lit (str "async") _ _ v1 []) as [a|] eqn:EG.
  - exfalso. injection EL as ->.
    apply match_lit_Some in EG as (s2 & -> & EG).
    apply match_plus_Some in EG as (c2 & u2 & v2 & -> & _ & _ & EG).
    cbv beta in EG. apply match_lit_Some in EG as (s3 & -> & EG).
    injection EG as <-. discriminate Hg.
  - apply match_lit_Some in EL as (s3 & -> & _).
    exists (c :: u), s3. split; [discriminate|]. split; [|reflexivity].
    cbn [forallb]. rewrite Hc, Hu. reflexivity.
Qed.

Lemma push_caps c r : map caps (fst (push c r)) = map caps (fst r).
Proof. destruct r as [[|f fs] t]; reflexivity. Qed.

(** The scan with the split pattern has a match without group 1 exactly
    when some newline of the subject stands in front of
    [export\s+function]. *)
Lemma scan_split_plain s q :
  Exists (fun g => group 1 g = None)
         (map caps (fst (scan split_pattern q s 0)))
  <-> exists u v, s = u ++ NL :: v /\ plain_function_line v.
Proof.
  revert s q. apply (scan_split_ind (fun q s r =>
    Exists (fun g => group 1 g = None) (map caps (fst r))
    <-> exists u v, s = u ++ NL :: v /\ plain_function_line v)).
  - intros q. cbn [fst map]. split.
    + intros H. inversion H.
    + intros (u & v & E & _). destruct u; discriminate E.
  - intros q s g Hm _ _ IH. cbn [fst map caps]. split.
    + intros H. apply List.Exists_cons in H as [H|H].
      * exists [], s. split; [reflexivity|].
        eapply split_match_group_none; eassumption.
      * apply IH in H as (u & v & -> & Hv). exists (NL :: u), v.
        split; [reflexivity|exact Hv].
    + intros (u & v & E & Hv). destruct u as [|c u]; cbn [app] in E.
      * injection E as ->. apply List.Exists_cons_hd.
        rewrite (split_match_plain q v Hv) in Hm. injection Hm as <-.
        reflexivity.
      * injection E as _ ->. apply List.Exists_cons_tl. apply IH. eauto.
  - intros q c s Hn IH. rewrite push_caps. rewrite IH. split.
    + intros (u & v & -> & Hv). exists (c :: u), v.
      split; [reflexivity|exact Hv].
    + intros (u & v & E & Hv). destruct u as [|c' u]; cbn [app] in E.
      * injection E as -> ->. rewrite (split_match_plain q v Hv) in Hn.
        discriminate Hn.
      * injection E as _ ->. eauto.
Qed.

Lemma forallb_has_group1 fs :
  forallb has_group1 fs = false
  <-> Exists (fun g => group 1 g = None) (map caps fs).
Proof.
  induction fs as [|f fs IH]; cbn [forallb map].
  - split; [discriminate|intros H; inversion H].
  - unfold has_group1 at 1. destruct (group 1 (caps f)) eqn:E; cbn [andb].
    + rewrite IH. split; [apply List.Exists_cons_tl|].
      intros H. apply List.Exists_cons in H as [H|H]; [congruence|exact H].
    + split; [intros _; apply List.Exists_cons_hd; exact E|reflexivity].
Qed.

(** The outcome of the loop over the blocks, for the text [s] from the
    first export on. *)
Lemma convert_blocks_outcome q s acc :
  is_Some (match_at export_pattern q s) ->
  let function_blocks := re_split split_pattern (NL :: s) in
  (has_plain_function s ->
   convert_blocks (length function_blocks) 0 function_blocks acc
   = Exc AttributeError)
  /\ (~ has_plain_function s ->
      exists out,
        convert_blocks (length function_blocks) 0 function_blocks acc
        = Val out).
Proof.
  intros H function_blocks.
  destruct (export_match_split q s H None) as [g0 Hg].
  set (r := scan split_pattern (Some NL) s 0).
  assert (function_blocks
          = Some [] :: group 1 g0
            :: flat_map (fun f => [Some (gap f); group 1 (caps f)]) (fst r)
            ++ [Some (snd r)]) as Hsplit.
  { subst function_blocks. unfold re_split. cbn [scan]. rewrite Hg.
    fold r. destruct r as [fs t]. reflexivity. }
  pose proof (scan_split_blocks (Some NL) s (export_match_startswith q s H))
    as Hb.
  fold r in Hb. apply Forall_pieces in Hb as [Hgaps Hlast].
  pose proof (scan_split_groups s (Some NL)) as Hgrp. fold r in Hgrp.
  pose proof (scan_split_plain s (Some NL)) as Hplain. fold r in Hplain.
  rewrite <- forallb_has_group1 in Hplain.
  assert (forall acc' t0,
             group 1 g0 = Some t0 ->
             convert_blocks (length function_blocks) 0 function_blocks acc'
             = if forallb has_group1 (fst r)
               then Val (acc'
                         ++ flat_map (fun b => rstrip (method_block b)
                                               ++ str "," ++ [NL])
                                     (map gap (fst r))
                         ++ method_block (snd r) ++ [NL])
               else Exc AttributeError) as Hrun.
  { intros acc' t0 E0. rewrite Hsplit. cbn [convert_blocks].
    rewrite (filter_other []) by reflexivity. rewrite E0.
    pose proof Hg as Hg'.
    apply split_pattern_match in Hg' as (_ & s' & _ & _ & Hg0).
    rewrite (filter_other _ (Hg0 t0 E0)).
    apply convert_blocks_pieces; try assumption.
    cbn [length]. rewrite length_app, length_flat_map_pair. cbn [length]. lia. }
  split.
  - intros [Hp|Hp].
    + rewrite (split_match_plain None s Hp) in Hg. injection Hg as <-.
      rewrite Hsplit. cbn [group convert_blocks].
      rewrite (filter_other []) by reflexivity. reflexivity.
    + destruct (group 1 g0) as [t0|] eqn:E0.
      * rewrite (Hrun acc t0 eq_refl). apply Hplain in Hp. rewrite Hp.
        reflexivity.
      * rewrite Hsplit. cbn [convert_blocks].
        rewrite (filter_other []) by reflexivity. reflexivity.
  - intros Hnot. destruct (group 1 g0) as [t0|] eqn:E0.
    + rewrite (Hrun acc t0 eq_refl).
      destruct (forallb has_group1 (fst r)) eqn:Ef; [eauto|].
      contradiction Hnot. right. apply Hplain. reflexivity.
    + contradiction Hnot. left.
      eapply split_match_group_none; eassumption.
Qed.

(** X5: on an existing file with a match of the export pattern the call
    raises [AttributeError] exactly when, from the first match on, the
    text or one of its lines starts with [export], whitespace and
    [function] (an exported function that is not async); otherwise it
    returns [True]. *)
Theorem convert_raises_on_plain_function filepath service_name w content m :
  read_file filepath w = (w, Val content) ->
  search export_pattern content = Some m ->
  (has_plain_function (skipn (m_start m) content) ->
   snd (convert_service_file filepath service_name w) = Exc AttributeError)
  /\ (~ has_plain_function (skipn (m_start m) content) ->
      snd (convert_service_file filepath service_name w) = Val true).
Proof.
  intros Hf Hs.
  rewrite (convert_service_file_exports _ _ _ _ _ Hf Hs).
  destruct (search_from_match _ _ _ _ _ Hs) as (q & len & Hm' & _).
  rewrite Nat.sub_0_r in Hm'.
  assert (is_Some (match_at export_pattern q (skipn (m_start m) content)))
    as Hm by (rewrite Hm'; eauto).
  destruct (convert_blocks_outcome q _
              (header (rstrip (firstn (m_start m) content)) service_name) Hm)
    as [Hraise Hret].
  split.
  - intros Hp. rewrite (Hraise Hp). reflexivity.
  - intros Hp. destruct (Hret Hp) as [out ->]. reflexivity.
Qed.

Lemma convert_raises_on_plain_function_witness :
  (has_plain_function (skipn 0 scenario) ->
   snd (convert_service_file "svc.js" "svc"
          (World Posix {["svc.js"%string := scenario]} []))
   = Exc AttributeError)
  /\ (~ has_plain_function (skipn 0 scenario) ->
      snd (convert_service_file "svc.js" "svc"
             (World Posix {["svc.js"%string := scenario]} []))
      = Val true).
Proof.
  refine (convert_raises_on_plain_function "svc.js" "svc"
            (World Posix {["svc.js"%string := scenario]} []) scenario
            (MatchObject 0 20 [(2, str "foo")]) _ _).
  - vm_compute. reflexivity.
  - vm_compute. reflexivity.
Defined.

(** ** The body of a function block *)

(** Where no line starts with [export], the removal of [export] changes
    nothing. *)
Lemma remove_export_keeps_lines s :
  forall q,
    (forall u v, s = u ++ v -> at_bol (last_of q u) = true ->
                 startswith (str "export") v = false) ->
    replaced [] (scan export_prefix_pattern q s 0) = s.
Proof.
  induction s as [|c s IH]; intros q H.
  - cbn [scan].
    destruct (match_at export_prefix_pattern q []) as [[len g]|] eqn:E;
      [|reflexivity].
    apply export_prefix_match in E as (_ & c & s' & E & _). discriminate E.
  - rewrite replaced_nomatch.
    + rewrite IH; [reflexivity|]. intros u v -> Hq.
      apply (H (c :: u) v); [reflexivity|exact Hq].
    + destruct (match_at export_prefix_pattern q (c :: s)) as [[len g]|] eqn:E;
        [|reflexivity].
      apply export_prefix_match in E as (Hq & c' & s' & E & _).
      specialize (H [] (c :: s) eq_refl Hq). rewrite E in H.
      rewrite startswith_app in H. discriminate H.
Qed.

Lemma function_pattern_match q s len g :
  match_at function_pattern q s = Some (len, g) ->
  at_bol q = true
  /\ (startswith (str "async") s = true
      \/ startswith (str "function") s = true).
Proof.
  unfold match_at, function_pattern. cbn [cat rmatch]. intros H.
  destruct (at_bol q); [|discriminate H]. split; [reflexivity|].
  destruct (match_lit (str "async") _ _ s []) as [a|] eqn:E.
  - apply match_lit_Some in E as (s2 & -> & _). left. apply startswith_app.
  - apply match_lit_Some in H as (s2 & -> & _). right. apply startswith_app.
Qed.

(** Where no line starts with [async] or [function], the rewriting of
    signatures changes nothing. *)
Lemma function_to_method_keeps_lines s :
  forall q,
    (forall u v, s = u ++ v -> at_bol (last_of q u) = true ->
                 startswith (str "async") v = false
                 /\ startswith (str "function") v = false) ->
    replaced method_template (scan function_pattern q s 0) = s.
Proof.
  induction s as [|c s IH]; intros q H.
  - cbn [scan].
    destruct (match_at function_pattern q []) as [[len g]|] eqn:E;
      [|reflexivity].
    apply function_pattern_match in E as (_ & [E|E]); discriminate E.
  - rewrite replaced_nomatch.
    + rewrite IH; [reflexivity|]. intros u v -> Hq.
      apply (H (c :: u) v); [reflexivity|exact Hq].
    + destruct (match_at function_pattern q (c :: s)) as [[len g]|] eqn:E;
        [|reflexivity].
      apply function_pattern_match in E as (Hq & E).
      destruct (H [] (c :: s) eq_refl Hq) as [H1 H2].
      destruct E as [E|E]; congruence.
Qed.

(** Behind an opening parenthesis the start of a line is the position
    after a newline. *)
Lemma at_bol_after_paren u :
  at_bol (last_of (Some "("%char) u) = true -> exists u', u = u' ++ [NL].
Proof.
  intros H. destruct u as [|c u]; [discriminate H|].
  assert (c :: u <> []) as Hne by discriminate.
  apply (at_bol_last (Some "("%char) []) in H; [exact H|exact Hne].
Qed.

(** The removal of [export] on a block that starts with a signature,
    with what it makes of the rest of the block. *)
Lemma remove_export_signature_rest ws1 marker ws3 name ws4 rest :
  ws1 <> [] -> forallb isspace ws1 = true ->
  async_marker marker ->
  ws3 <> [] -> forallb isspace ws3 = true ->
  name <> [] -> forallb isword name = true ->
  forallb isspace ws4 = true ->
  ~ (name = str "export" /\ (exists ws, ws3 = ws ++ [NL]) /\ ws4 <> []) ->
  remove_export (str "export" ++ ws1 ++ marker ++ str "function" ++ ws3
                 ++ name ++ ws4 ++ str "(" ++ rest)
  = (marker ++ str "function" ++ ws3 ++ name ++ ws4 ++ str "(")
    ++ replaced [] (scan export_prefix_pattern (Some "("%char) rest 0).
Proof.
  intros Hne1 H1 Hm Hne3 H3 Hnen Hn H4 Hnot.
  unfold remove_export. rewrite re_sub_scan.
  rewrite (app_assoc (str "export") ws1).
  rewrite (replaced_match export_prefix_pattern [] None (str "export" ++ ws1) _ []);
    [|destruct ws1; discriminate
     |apply export_prefix_match_run;
      [reflexivity|assumption|assumption|apply async_marker_head; assumption]].
  cbn [expand flat_map app].
  set (q1 := last_of None (str "export" ++ ws1)).
  rewrite (app_assoc marker), (app_assoc (marker ++ str "function")).
  rewrite (remove_export_keeps ((marker ++ str "function") ++ ws3)).
  2:{ apply List.Forall_app. split; [|apply spaces_no_e; assumption].
      apply List.Forall_app. split; [apply async_marker_no_e; assumption|].
      repeat constructor; discriminate. }
  set (q2 := last_of q1 ((marker ++ str "function") ++ ws3)).
  destruct name as [|c4 u4] eqn:En; [contradiction|]. rewrite <- En in *.
  assert (match_at export_prefix_pattern q2 (name ++ ws4 ++ str "(" ++ rest)
          = None) as Hnone.
  { apply export_prefix_nomatch_name; try assumption.
    intros (E1 & E2 & E3). apply Hnot. repeat split; try assumption.
    apply (at_bol_last q1 (marker ++ str "function")); assumption. }
  rewrite En in Hnone |- *. cbn [app] in Hnone |- *.
  rewrite (replaced_nomatch _ _ _ _ _ Hnone).
  rewrite En in Hn. cbn [forallb] in Hn. apply andb_true_iff in Hn as [Hc4 Hu4].
  rewrite (remove_export_keeps_word u4 c4 _ Hc4 Hu4).
  rewrite (app_assoc ws4).
  rewrite (remove_export_keeps (ws4 ++ str "(")).
  2:{ apply List.Forall_app. split; [apply spaces_no_e; assumption|].
      repeat constructor; discriminate. }
  rewrite last_of_app. cbn [last_of fold_left str list_ascii_of_string].
  norm_app. reflexivity.
Qed.

Lemma keyword_free_lines_spec s :
  keyword_free_lines s = true ->
  forall u v, s = u ++ NL :: v ->
              startswith (str "export") v = false
              /\ startswith (str "async") v = false
              /\ startswith (str "function") v = false.
Proof.
  induction s as [|c s IH]; intros H u v E.
  - destruct u; discriminate E.
  - cbn [keyword_free_lines] in H. apply andb_true_iff in H as [Hc H].
    destruct u as [|c' u]; cbn [app] in E; injection E as -> ->.
    + rewrite Ascii.eqb_refl in Hc.
      apply andb_true_iff in Hc as [Hc H3]. apply andb_true_iff in Hc as [H1 H2].
      apply negb_true_iff in H1, H2, H3. auto.
    + apply (IH H u v). reflexivity.
Qed.

(** X6: in a function block that starts with a signature (as in C6,
    so not one whose name is the word [export] at the start of a line
    and followed by whitespace), if no line behind the opening
    parenthesis starts with [export], [async] or [function], the method
    block is the indented block with the signature replaced by the
    async marker, the name and the parenthesis: everything behind the
    parenthesis is kept as it is. *)
Theorem method_block_keeps_body ws1 marker ws3 name ws4 rest :
  ws1 <> [] -> forallb isspace ws1 = true ->
  async_marker marker ->
  ws3 <> [] -> forallb isspace ws3 = true ->
  name <> [] -> forallb isword name = true ->
  forallb isspace ws4 = true ->
  ~ (name = str "export" /\ (exists ws, ws3 = ws ++ [NL]) /\ ws4 <> []) ->
  keyword_free_lines rest = true ->
  method_block (str "export" ++ ws1 ++ marker ++ str "function" ++ ws3
                ++ name ++ ws4 ++ str "(" ++ rest)
  = indent_block (marker ++ name ++ str "(" ++ rest).
Proof.
  intros Hne1 H1 Hm Hne3 H3 Hnen Hn H4 Hnot Hfree.
  pose proof (keyword_free_lines_spec rest Hfree) as Hrest.
  unfold method_block. f_equal.
  rewrite remove_export_signature_rest by assumption.
  rewrite remove_export_keeps_lines.
  2:{ intros u v -> Hq. apply at_bol_after_paren in Hq as [u' ->].
      apply (Hrest u' v). rewrite <- app_assoc. reflexivity. }
  unfold function_to_method. rewrite re_sub_scan.
  assert (replaced method_template (scan function_pattern (Some "("%char) rest 0)
          = rest) as Hkeep.
  { apply function_to_method_keeps_lines. intros u v -> Hq.
    apply at_bol_after_paren in Hq as [u' ->].
    destruct (Hrest u' v) as (_ & Ha & Hf); [|split; assumption].
    rewrite <- app_assoc. reflexivity. }
  destruct Hm as [->|(ws2 & Hne2 & H2 & ->)].
  - cbn [app].
    rewrite (replaced_match function_pattern method_template None _ _
               [(2, name)]);
      [|discriminate|apply function_pattern_match_plain; assumption].
    rewrite !last_of_app. cbn [last_of fold_left str list_ascii_of_string].
    rewrite Hkeep.
    cbn [expand method_template flat_map group Nat.eqb default app].
    rewrite app_nil_r, <- app_assoc. reflexivity.
  - rewrite (replaced_match function_pattern method_template None _ _
               [(2, name); (1, str "async" ++ ws2)]);
      [|discriminate|apply function_pattern_match_async; assumption].
    rewrite !last_of_app. cbn [last_of fold_left str list_ascii_of_string].
    rewrite Hkeep.
    cbn [expand method_template flat_map group Nat.eqb default].
    rewrite app_nil_r, <- !app_assoc. reflexivity.
Qed.

Lemma method_block_keeps_body_witness :
  method_block (str "export" ++ str " " ++ (str "async" ++ str " ")
                ++ str "function" ++ str " " ++ str "load" ++ []
                ++ str "(" ++ (str "id) {" ++ [NL] ++ str "  return get(id);"
                               ++ [NL] ++ str "}" ++ [NL]))
  = indent_block ((str "async" ++ str " ") ++ str "load" ++ str "("
                  ++ (str "id) {" ++ [NL] ++ str "  return get(id);"
                      ++ [NL] ++ str "}" ++ [NL])).
Proof.
  refine (method_block_keeps_body (str " ") (str "async" ++ str " ") (str " ")
            (str "load") []
            (str "id) {" ++ [NL] ++ str "  return get(id);" ++ [NL]
             ++ str "}" ++ [NL]) _ _ _ _ _ _ _ _ _ _).
  - discriminate.
  - reflexivity.
  - right. exists (str " "). repeat split. discriminate.
  - discriminate.
  - reflexivity.
  - discriminate.
  - reflexivity.
  - reflexivity.
  - intros (E & _). discriminate E.
  - reflexivity.
Defined.

(** ** Matches and blocks *)

(** X7: when the call returns, the text written holds a method block
    for every function block the text from the first match on is cut
    into, and there are at least as many of them as the export pattern
    has matches in the file: no match of the export pattern is left
    without a block. *)
Theorem every_export_in_a_block filepath service_name w content w' b :
  read_file filepath w = (w, Val content) ->
  findall export_pattern content <> [] ->
  convert_service_file filepath service_name w = (w', Val b) ->
  exists m blocks last,
    search export_pattern content = Some m
    /\ join_nl (blocks ++ [last]) = skipn (m_start m) content
    /\ length (findall export_pattern content) <= length (blocks ++ [last])
    /\ files w' !! filepath
       = Some (translate_newlines (os w)
                 (header (rstrip (firstn (m_start m) content)) service_name
                  ++ flat_map (fun block => rstrip (method_block block)
                                            ++ str "," ++ [NL]) blocks
                  ++ method_block last ++ [NL]
                  ++ str "};" ++ [NL])).
Proof.
  intros Hf Hne H.
  destruct (convert_service_file_output filepath service_name w content w' b
              Hf Hne H) as (m & blocks & last & Hs & _ & Hj & _ & Hlen & Hw).
  exists m, blocks, last. auto.
Qed.

Lemma every_export_in_a_block_witness :
  exists m blocks last,
    search export_pattern two_async = Some m
    /\ join_nl (blocks ++ [last]) = skipn (m_start m) two_async
    /\ length (findall export_pattern two_async) <= length (blocks ++ [last])
    /\ files (fst (convert_service_file "a.js" "svc" sample_world))
         !! "a.js"%string
       = Some (translate_newlines (os sample_world)
                 (header (rstrip (firstn (m_start m) two_async)) "svc"
                  ++ flat_map (fun block => rstrip (method_block block)
                                            ++ str "," ++ [NL]) blocks
                  ++ method_block last ++ [NL]
                  ++ str "};" ++ [NL])).
Proof.
  refine (every_export_in_a_block "a.js" "svc" sample_world two_async _ true
            _ _ _).
  - vm_compute. reflexivity.
  - vm_compute. discriminate.
  - vm_compute. reflexivity.
Defined.

(** ** A second run *)

Lemma line_heads_ok_app a :
  forall q b,
    line_heads_ok q (a ++ b)
    = line_heads_ok q a && line_heads_ok (last_of q a) b.
Proof.
  induction a as [|c a IH]; intros q b; [reflexivity|].
  cbn [app line_heads_ok]. rewrite IH, andb_assoc. reflexivity.
Qed.

Lemma export_match_bol q s :
  is_Some (match_at export_pattern q s) -> at_bol q = true.
Proof.
  unfold match_at. rewrite rmatch_export_pattern. cbn [rmatch].
  destruct (at_bol q); [reflexivity|intros H; no_some H].
Qed.

(** The export pattern does not match where the text does not start
    with [e] at the start of a line. *)
Lemma export_nomatch_head q c s :
  at_bol q && Ascii.eqb "e" c = false ->
  match_at export_pattern q (c :: s) = None.
Proof.
  intros H.
  destruct (match_at export_pattern q (c :: s)) as [mg|] eqn:E; [|reflexivity].
  assert (is_Some (match_at export_pattern q (c :: s))) as Hm
    by (rewrite E; eauto).
  pose proof (export_match_bol _ _ Hm) as Hq.
  apply export_match_startswith in Hm. cbn [startswith str list_ascii_of_string] in Hm.
  apply andb_true_iff in Hm as [Hc _]. rewrite Hq, Hc in H. discriminate H.
Qed.

Lemma export_nomatch_nil q : match_at export_pattern q [] = None.
Proof.
  destruct (match_at export_pattern q []) as [mg|] eqn:E; [|reflexivity].
  assert (is_Some (match_at export_pattern q [])) as Hm by (rewrite E; eauto).
  apply export_match_startswith in Hm. discriminate Hm.
Qed.

(** A text none of whose lines starts with [e] has no match of the
    export pattern. *)
Lemma line_heads_ok_scan s :
  forall q skip,
    line_heads_ok q s = true -> fst (scan export_pattern q s skip) = [].
Proof.
  induction s as [|c s IH]; intros q skip H.
  - destruct skip; cbn [scan]; [|reflexivity].
    rewrite export_nomatch_nil. reflexivity.
  - cbn [line_heads_ok] in H. apply andb_true_iff in H as [Hc H].
    apply negb_true_iff in Hc.
    destruct skip; cbn [scan]; [|apply IH; exact H].
    rewrite (export_nomatch_head _ _ _ Hc). apply push_fst_nil.
    apply IH. exact H.
Qed.

(** Inside a line only its first position is the start of a line. *)
Lemma line_heads_ok_line l :
  forall q,
    ~ In NL l ->
    (at_bol q = true -> startswith (str "e") l = false) ->
    line_heads_ok q l = true.
Proof.
  induction l as [|c l IH]; intros q Hnl Hq; [reflexivity|].
  cbn [line_heads_ok]. apply andb_true_iff. split.
  - apply negb_true_iff. destruct (at_bol q); [|reflexivity].
    specialize (Hq eq_refl). cbn [startswith str list_ascii_of_string] in Hq.
    rewrite andb_true_r in Hq. exact Hq.
  - apply IH.
    + intros Hin. apply Hnl. right. exact Hin.
    + cbn [at_bol]. intros E. apply Ascii.eqb_eq in E. subst c.
      contradiction Hnl. left. reflexivity.
Qed.

Lemma line_heads_ok_join ls :
  forall q,
    Forall (fun l => ~ In NL l /\ startswith (str "e") l = false) ls ->
    line_heads_ok q (join_nl ls) = true.
Proof.
  induction ls as [|l ls IH]; intros q H; [reflexivity|].
  apply List.Forall_cons_iff in H as [[Hnl He] H].
  destruct ls as [|l' ls].
  - cbn [join_nl]. apply line_heads_ok_line; auto.
  - change (join_nl (l :: l' :: ls)) with (l ++ NL :: join_nl (l' :: ls)).
    rewrite line_heads_ok_app. apply andb_true_iff. split.
    + apply line_heads_ok_line; auto.
    + cbn [line_heads_ok]. rewrite andb_false_r. cbn [negb andb].
      apply IH. exact H.
Qed.

Lemma indent_line_head l : startswith (str "e") (indent_line l) = false.
Proof.
  unfold indent_line. rewrite truthy_strip.
  destruct (nonblank l) eqn:E; [reflexivity|].
  destruct l as [|c l]; [reflexivity|].
  cbn [nonblank existsb] in E. apply orb_false_iff in E as [E _].
  apply negb_false_iff in E.
  cbn [startswith str list_ascii_of_string]. rewrite andb_true_r.
  destruct (Ascii.eqb "e" c) eqn:Ec; [|reflexivity].
  apply Ascii.eqb_eq in Ec. subst c. discriminate E.
Qed.

(** No line of an indented block starts with [e]. *)
Lemma line_heads_ok_indent_block q block :
  line_heads_ok q (indent_block block) = true.
Proof.
  unfold indent_block. apply line_heads_ok_join.
  apply List.Forall_forall. intros l Hin.
  apply List.in_map_iff in Hin as [l0 [<- Hin]]. split.
  - apply indent_line_no_newline.
    pose proof (split_nl_no_newline block) as H.
    rewrite List.Forall_forall in H. exact (H _ Hin).
  - apply indent_line_head.
Qed.

Lemma line_heads_ok_rstrip q t :
  line_heads_ok q t = true -> line_heads_ok q (rstrip t) = true.
Proof.
  intros H. destruct (rstrip_spaces t) as (ws & E & _).
  rewrite E, line_heads_ok_app in H. apply andb_true_iff in H as [H _].
  exact H.
Qed.

Lemma last_of_snoc q l c : last_of q (l ++ [c]) = Some c.
Proof. rewrite last_of_app. reflexivity. Qed.

(** The method blocks written, with their commas and newlines: no line
    starts with [e], and the text ends with a newline. *)
Lemma line_heads_ok_body blocks last :
  let body := flat_map (fun block => rstrip (method_block block)
                                     ++ str "," ++ [NL]) blocks
              ++ method_block last ++ [NL] in
  line_heads_ok (Some NL) body = true /\ last_of (Some NL) body = Some NL.
Proof.
  unfold method_block.
  induction blocks as [|b blocks [IH1 IH2]]; cbn zeta in *.
  - cbn [flat_map app]. split; [|apply last_of_snoc].
    rewrite line_heads_ok_app, line_heads_ok_indent_block.
    cbn [line_heads_ok]. rewrite andb_false_r. reflexivity.
  - cbn [flat_map]. rewrite <- !app_assoc. split.
    + rewrite line_heads_ok_app.
      rewrite (line_heads_ok_rstrip _ _ (line_heads_ok_indent_block _ _)).
      cbn [andb].
      change (str "," ++ [NL] ++ ?x) with (","%char :: NL :: x).
      cbn [line_heads_ok]. rewrite !andb_false_r. cbn [negb andb].
      exact IH1.
    + rewrite (app_assoc (rstrip _)), (app_assoc (_ ++ str ",")).
      rewrite last_of_app, last_of_snoc. exact IH2.
Qed.

(** The shape of a match of the export pattern. *)
Lemma export_pattern_shape q s :
  is_Some (match_at export_pattern q s) ->
  exists ws1 marker ws3 name ws4 rest,
    ws1 <> [] /\ forallb isspace ws1 = true
    /\ async_marker marker
    /\ ws3 <> [] /\ forallb isspace ws3 = true
    /\ name <> [] /\ forallb isword name = true
    /\ forallb isspace ws4 = true
    /\ s = str "export" ++ ws1 ++ marker ++ str "function" ++ ws3
           ++ name ++ ws4 ++ str "(" ++ rest.
Proof.
  intros [[len g] H]. revert H.
  unfold match_at. rewrite rmatch_export_pattern. cbn [rmatch].
  destruct (at_bol q); [|discriminate]. unfold export_head, signature_tail.
  cbn [cat rmatch]. intros H.
  apply match_lit_Some in H as (s1 & -> & H).
  apply match_plus_Some in H as (c & u & v & -> & Hc & Hu & H).
  assert (forall q' g' s3,
             match_plus isspace
               (rmatch (Group 2 (Plus isword))
                  (rmatch (Star isspace)
                     (rmatch (Lit (str "("))
                        (fun _ s' g0 =>
                           Some (length (str "export" ++ c :: u ++ v)
                                 - length s', g0)))))
               q' s3 g' = Some (len, g) ->
             exists ws3 name ws4 rest,
               ws3 <> [] /\ forallb isspace ws3 = true
               /\ name <> [] /\ forallb isword name = true
               /\ forallb isspace ws4 = true
               /\ s3 = ws3 ++ name ++ ws4 ++ str "(" ++ rest) as Htail.
  { intros q' g' s3 E.
    apply match_plus_Some in E as (c3 & u3 & v3 & -> & Hc3 & Hu3 & E).
    cbn [rmatch] in E.
    apply match_plus_Some in E as (c4 & u4 & v4 & -> & Hc4 & Hu4 & E).
    cbv beta in E. apply match_star_Some in E as (u5 & v5 & -> & Hu5 & E).
    apply match_lit_Some in E as (s6 & -> & _).
    exists (c3 :: u3), (c4 :: u4), u5, s6.
    cbn [forallb]. rewrite Hc3, Hu3, Hc4, Hu4.
    repeat split; try discriminate; try assumption. }
  exists (c :: u). cbn [forallb]. rewrite Hc, Hu.
  destruct (match_lit (str "async") _ _ v []) as [a|] eqn:EG.
  - injection H as ->.
    apply match_lit_Some in EG as (s2 & -> & EG).
    apply match_plus_Some in EG as (c2 & u2 & v2 & -> & Hc2 & Hu2 & EG).
    cbv beta in EG. apply match_lit_Some in EG as (s3 & -> & EG).
    apply Htail in EG as (ws3 & name & ws4 & rest & ? & ? & ? & ? & ? & ->).
    exists (str "async" ++ c2 :: u2), ws3, name, ws4, rest.
    repeat split; try discriminate; try assumption;
      try (norm_app; reflexivity).
    right. exists (c2 :: u2). cbn [forallb]. rewrite Hc2, Hu2.
    repeat split. discriminate.
  - apply match_lit_Some in H as (s3 & -> & H).
    apply Htail in H as (ws3 & name & ws4 & rest & ? & ? & ? & ? & ? & ->).
    exists [], ws3, name, ws4, rest.
    repeat split; try discriminate; try assumption;
      try (norm_app; reflexivity).
    left. reflexivity.
Qed.

(** A text of that shape at the start of a line is matched, whatever
    follows the parenthesis. *)
Lemma export_pattern_match_shape q ws1 marker ws3 name ws4 rest :
  at_bol q = true ->
  ws1 <> [] -> forallb isspace ws1 = true ->
  async_marker marker ->
  ws3 <> [] -> forallb isspace ws3 = true ->
  name <> [] -> forallb isword name = true ->
  forallb isspace ws4 = true ->
  is_Some (match_at export_pattern q
             (str "export" ++ ws1 ++ marker ++ str "function" ++ ws3
              ++ name ++ ws4 ++ str "(" ++ rest)).
Proof.
  intros Hq Hne1 H1 Hm Hne3 H3 Hnen Hn H4.
  pose proof (async_marker_head marker (ws3 ++ name ++ ws4 ++ str "(" ++ rest) Hm)
    as Hhead.
  set (s := str "export" ++ ws1 ++ marker ++ str "function" ++ ws3
            ++ name ++ ws4 ++ str "(" ++ rest).
  set (k := fun (_ : option ascii) (s' : text) (g : groups) =>
              Some (length s - length s', g)).
  assert (is_Some
            (rmatch (cat [Opt (Group 1 (cat [Lit (str "async"); Plus isspace]));
                          Lit (str "function"); Plus isspace;
                          Group 2 (Plus isword); Star isspace; Lit (str "(")])
               k (last_of q (str "export" ++ ws1))
               (marker ++ str "function" ++ ws3 ++ name ++ ws4 ++ str "("
                ++ rest) [])) as [a Ha].
  { assert (exists len g,
               match_at function_pattern None
                 (marker ++ str "function" ++ ws3 ++ name ++ ws4 ++ str "("
                  ++ rest) = Some (len, g)) as (len & g & Hf).
    { destruct Hm as [->|(ws2 & Hne2 & H2 & ->)].
      - eexists _, _. cbn [app].
        pose proof (function_pattern_match_plain ws3 name ws4 rest
                      Hne3 H3 Hnen Hn H4) as E.
        rewrite <- !app_assoc in E. exact E.
      - eexists _, _.
        pose proof (function_pattern_match_async ws2 ws3 name ws4 rest
                      Hne2 H2 Hne3 H3 Hnen Hn H4) as E.
        rewrite <- !app_assoc in E. rewrite <- !app_assoc. exact E. }
    unfold match_at, function_pattern in Hf. cbn [cat rmatch at_bol] in Hf.
    eapply (rmatch_mono
              (cat [Opt (Group 1 (cat [Lit (str "async"); Plus isspace]));
                    Lit (str "function"); Plus isspace;
                    Group 2 (Plus isword); Star isspace; Lit (str "(")]));
      [reflexivity| |cbn [cat rmatch]; rewrite Hf; eauto].
    intros. unfold k. eauto. }
  destruct ws1 as [|c u]; [contradiction|]. cbn [forallb] in H1.
  apply andb_true_iff in H1 as [Hc Hu].
  exists a. unfold match_at. fold k. unfold export_pattern.
  cbn [cat rmatch]. rewrite Hq. subst s.
  rewrite match_lit_app. cbn [app].
  apply match_plus_run; assumption.
Qed.

(** The run of characters of a class at the head of a text is determined
    by the text. *)
Lemma run_unique (p : ascii -> bool) a :
  forall b x y,
    forallb p a = true -> forallb p b = true ->
    match x with c :: _ => p c = false | [] => True end ->
    match y with c :: _ => p c = false | [] => True end ->
    a ++ x = b ++ y -> a = b /\ x = y.
Proof.
  induction a as [|c a IH]; intros [|c' b] x y Ha Hb Hx Hy E;
    cbn [app forallb] in *.
  - split; [reflexivity|exact E].
  - subst x. apply andb_true_iff in Hb as [Hc _]. congruence.
  - subst y. apply andb_true_iff in Ha as [Hc _]. congruence.
  - apply andb_true_iff in Ha as [_ Ha]. apply andb_true_iff in Hb as [_ Hb].
    injection E as -> E. destruct (IH b x y Ha Hb Hx Hy E) as [-> ->].
    split; reflexivity.
Qed.

Lemma word_no_newline name : forallb isword name = true -> ~ In NL name.
Proof.
  intros H Hin. rewrite forallb_forall in H. apply H in Hin. discriminate Hin.
Qed.

Lemma ends_nonspace_not_nil l : ends_nonspace l -> l <> [].
Proof. intros (l0 & x & -> & _). destruct l0; discriminate. Qed.

Lemma ends_nonspace_tail a l : ends_nonspace (a ++ l) -> l <> [] -> ends_nonspace l.
Proof.
  intros (l0 & x & E & Hx) Hne. destruct (exists_last Hne) as (l1 & y & ->).
  rewrite app_assoc in E. apply app_inj_tail in E as [_ ->].
  exists l1, x. split; [reflexivity|exact Hx].
Qed.

Lemma after_token tok l : ends_nonspace (tok ++ l) -> l = [] \/ ends_nonspace l.
Proof.
  intros H. destruct l as [|c l]; [left; reflexivity|right].
  apply (ends_nonspace_tail tok); [exact H|discriminate].
Qed.

(** A literal without newline that starts a text which also reads [l],
    newline, ...: the literal lies inside [l]. *)
Lemma cross_lit tok :
  forall l B J,
    ~ In NL tok -> tok ++ B = l ++ NL :: J ->
    exists l', l = tok ++ l' /\ B = l' ++ NL :: J.
Proof.
  induction tok as [|a tok IH]; intros l B J Hnl E.
  - exists l. split; [reflexivity|exact E].
  - destruct l as [|a' l]; cbn [app] in E; injection E as -> E.
    + contradiction Hnl. left. reflexivity.
    + destruct (IH l B J) as (l' & -> & ->); [|exact E|eauto].
      intros Hin. apply Hnl. right. exact Hin.
Qed.

(** The same for a run of whitespace, when [l] ends with a character
    that is not whitespace. *)
Lemma cross_space ws :
  forall l B J,
    forallb isspace ws = true -> ends_nonspace l ->
    ws ++ B = l ++ NL :: J ->
    exists l', l = ws ++ l' /\ B = l' ++ NL :: J /\ ends_nonspace l'.
Proof.
  induction ws as [|a ws IH]; intros l B J Hws Hl E.
  - exists l. auto.
  - cbn [forallb] in Hws. apply andb_true_iff in Hws as [Ha Hws].
    destruct l as [|a' l]; [contradiction (ends_nonspace_not_nil _ Hl); reflexivity|].
    cbn [app] in E. injection E as -> E.
    assert (ends_nonspace l) as Hl'.
    { destruct l as [|c l].
      - destruct Hl as (l0 & x & E0 & Hx).
        destruct l0 as [|? [|? ?]]; try discriminate E0.
        injection E0 as ->. congruence.
      - apply (ends_nonspace_tail [a']); [exact Hl|discriminate]. }
    destruct (IH l B J Hws Hl' E) as (l' & -> & -> & Hl'').
    exists l'. auto.
Qed.

(** From the whitespace in front of the name on. *)
Lemma tail_crossing ws3 name ws4 rest l T :
  forallb isspace ws3 = true ->
  name <> [] -> forallb isword name = true ->
  forallb isspace ws4 = true ->
  l = [] \/ ends_nonspace l ->
  ws3 ++ name ++ ws4 ++ str "(" ++ rest
  = l ++ NL :: NL :: str "export const " ++ T ->
  exists l', l = ws3 ++ name ++ ws4 ++ str "(" ++ l'.
Proof.
  intros H3 Hnen Hn H4 [->|Hl] E.
  - exfalso. cbn [app] in E.
    apply (run_unique isspace ws3 [NL; NL]) in E as [_ E];
      [|assumption|reflexivity| |reflexivity].
    2:{ destruct name as [|c name]; [contradiction|]. cbn [forallb] in Hn.
        apply andb_true_iff in Hn as [Hc _]. apply word_not_space. exact Hc. }
    apply (run_unique isword name (str "export") _ (str " const " ++ T))
      in E as [_ E];
      [|assumption|reflexivity|apply head_not_word; assumption|reflexivity].
    apply (run_unique isspace ws4 (str " ") _ (str "const " ++ T))
      in E as [_ E]; [|assumption|reflexivity|reflexivity|reflexivity].
    discriminate E.
  - destruct (cross_space ws3 l _ _ H3 Hl E) as (l4 & -> & E4 & Hl4).
    destruct (cross_lit name l4 _ _ (word_no_newline _ Hn) E4)
      as (l5 & -> & E5).
    destruct (after_token _ _ Hl4) as [->|Hl5].
    + exfalso. cbn [app] in E5.
      apply (run_unique isspace ws4 [NL; NL]) in E5 as [_ E5];
        [|assumption|reflexivity|reflexivity|reflexivity].
      discriminate E5.
    + destruct (cross_space ws4 l5 _ _ H4 Hl5 E5) as (l6 & -> & E6 & Hl6).
      assert (~ In NL (str "(")) as Hp
        by (intros [Hin|[]]; discriminate Hin).
      destruct (cross_lit (str "(") l6 rest _ Hp E6) as (l7 & -> & _).
      exists l7. reflexivity.
Qed.

(** A text of the shape of a match that also reads [X], two newlines,
    [export const ...], where [X] ends with a character that is not
    whitespace: the whole shape lies inside [X]. *)
Lemma shape_crossing ws1 marker ws3 name ws4 rest X T :
  forallb isspace ws1 = true ->
  async_marker marker ->
  forallb isspace ws3 = true ->
  name <> [] -> forallb isword name = true ->
  forallb isspace ws4 = true ->
  ends_nonspace X ->
  str "export" ++ ws1 ++ marker ++ str "function" ++ ws3
  ++ name ++ ws4 ++ str "(" ++ rest
  = X ++ NL :: NL :: str "export const " ++ T ->
  exists l', X = str "export" ++ ws1 ++ marker ++ str "function" ++ ws3
                 ++ name ++ ws4 ++ str "(" ++ l'.
Proof.
  intros H1 Hm H3 Hnen Hn H4 HX E.
  destruct (cross_lit (str "export") X _ _ export_no_newline E)
    as (l1 & -> & E1).
  destruct (after_token _ _ HX) as [->|Hl1].
  - exfalso. cbn [app] in E1.
    apply (run_unique isspace ws1 [NL; NL]) in E1 as [_ E1];
      [|assumption|reflexivity|apply async_marker_head; assumption
       |reflexivity].
    destruct Hm as [->|(ws2 & _ & _ & ->)]; discriminate E1.
  - destruct (cross_space ws1 l1 _ _ H1 Hl1 E1) as (l2 & -> & E2 & Hl2).
    assert (forall l,
               l = [] \/ ends_nonspace l ->
               ws3 ++ name ++ ws4 ++ str "(" ++ rest
               = l ++ NL :: NL :: str "export const " ++ T ->
               exists l', l = ws3 ++ name ++ ws4 ++ str "(" ++ l') as Htail
      by (intros; eapply tail_crossing; eassumption).
    assert (~ In NL (str "function")) as Hf.
    { cbn. intros H. repeat (destruct H as [H|H]; [discriminate H|]). exact H. }
    destruct Hm as [->|(ws2 & _ & H2 & ->)].
    + cbn [app] in E2 |- *.
      destruct (cross_lit (str "function") l2 _ _ Hf E2) as (l3 & -> & E3).
      destruct (Htail l3 (after_token _ _ Hl2) E3) as (l' & ->).
      exists l'. reflexivity.
    + rewrite <- app_assoc in E2.
      assert (~ In NL (str "async")) as Ha.
      { cbn. intros H. repeat (destruct H as [H|H]; [discriminate H|]).
        exact H. }
      destruct (cross_lit (str "async") l2 _ _ Ha E2) as (l2a & -> & E2a).
      destruct (after_token _ _ Hl2) as [->|Hl2a].
      * exfalso. cbn [app] in E2a.
        apply (run_unique isspace ws2 [NL; NL]) in E2a as [_ E2a];
          [|assumption|reflexivity|reflexivity|reflexivity].
        discriminate E2a.
      * destruct (cross_space ws2 l2a _ _ H2 Hl2a E2a)
          as (l2b & -> & E2b & Hl2b).
        destruct (cross_lit (str "function") l2b _ _ Hf E2b)
          as (l3 & -> & E3).
        destruct (Htail l3 (after_token _ _ Hl2b) E3) as (l' & ->).
        exists l'. rewrite <- !app_assoc. reflexivity.
Qed.

(** A match of the export pattern that starts in [X] does not reach the
    header line put behind [X]: the pattern matches as well with any
    other text behind [X]. *)
Lemma export_match_crossing q X T Z :
  ends_nonspace X ->
  is_Some (match_at export_pattern q
             (X ++ NL :: NL :: str "export const " ++ T)) ->
  is_Some (match_at export_pattern q (X ++ Z)).
Proof.
  intros HX H. pose proof (export_match_bol _ _ H) as Hq.
  apply export_pattern_shape in H
    as (ws1 & marker & ws3 & name & ws4 & rest
        & Hne1 & H1 & Hm & Hne3 & H3 & Hnen & Hn & H4 & E).
  symmetry in E.
  destruct (shape_crossing ws1 marker ws3 name ws4 rest X T) as (l' & ->);
    try assumption.
  replace ((str "export" ++ ws1 ++ marker ++ str "function" ++ ws3
            ++ name ++ ws4 ++ str "(" ++ l') ++ Z)
    with (str "export" ++ ws1 ++ marker ++ str "function" ++ ws3
          ++ name ++ ws4 ++ str "(" ++ (l' ++ Z))
    by (rewrite <- !app_assoc; reflexivity).
  apply export_pattern_match_shape; assumption.
Qed.

(** In front of the match [re.search] finds, the pattern matches
    nowhere. *)
Lemma search_none_before r s :
  forall q i m,
    search_from r q s i = Some m ->
    forall u v, s = u ++ v -> length u < m_start m - i ->
                match_at r (last_of q u) v = None.
Proof.
  induction s as [|c s IH]; intros q i m H u v E Hlen;
    cbn [search_from] in H.
  - destruct (match_at r q []) as [[len g]|]; [|discriminate H].
    injection H as <-. cbn [m_start] in Hlen. lia.
  - destruct (match_at r q (c :: s)) as [[len g]|] eqn:Em.
    + injection H as <-. cbn [m_start] in Hlen. lia.
    + destruct u as [|c' u]; cbn [app] in E.
      * subst v. exact Em.
      * injection E as <- ->. apply (IH (Some c) (S i) m H u v eq_refl).
        cbn [length] in Hlen. lia.
Qed.

Lemma lstrip_head t :
  match lstrip t with c :: _ => isspace c = false | [] => True end.
Proof.
  induction t as [|c t IH]; [exact I|]. cbn [lstrip].
  destruct (isspace c) eqn:E; [exact IH|exact E].
Qed.

Lemma rstrip_ends s : rstrip s = [] \/ ends_nonspace (rstrip s).
Proof.
  unfold rstrip. pose proof (lstrip_head (rev s)) as H.
  destruct (lstrip (rev s)) as [|c l]; [left; reflexivity|right].
  exists (rev l), c. split; [reflexivity|exact H].
Qed.

Lemma scan_nil_cons r q c s :
  match_at r q (c :: s) = None ->
  fst (scan r (Some c) s 0) = [] -> fst (scan r q (c :: s) 0) = [].
Proof. intros Hm H. cbn [scan]. rewrite Hm. apply push_fst_nil. exact H. Qed.

Lemma scan_nil_prefix r a :
  forall q b,
    (forall u c v, a = u ++ c :: v ->
                   match_at r (last_of q u) (c :: v ++ b) = None) ->
    fst (scan r (last_of q a) b 0) = [] ->
    fst (scan r q (a ++ b) 0) = [].
Proof.
  induction a as [|c a IH]; intros q b H Hb; [exact Hb|].
  cbn [app]. apply scan_nil_cons.
  - apply (H [] c a). reflexivity.
  - apply IH; [|exact Hb]. intros u c' v ->. apply (H (c :: u) c' v).
    reflexivity.
Qed.

(** The opening line of the object literal is no match. *)
Lemma header_line_nomatch q T :
  match_at export_pattern q (str "export const " ++ T) = None.
Proof.
  unfold match_at, export_pattern. cbn [cat rmatch].
  destruct (at_bol q); reflexivity.
Qed.

(** The text written has no match of the export pattern, when the
    object name has no newline in it. *)
Lemma output_has_no_export content m service_name blocks last :
  search export_pattern content = Some m ->
  ~ In NL (str service_name) ->
  findall export_pattern
    (header (rstrip (firstn (m_start m) content)) service_name
     ++ flat_map (fun block => rstrip (method_block block)
                               ++ str "," ++ [NL]) blocks
     ++ method_block last ++ [NL]
     ++ str "};" ++ [NL]) = [].
Proof.
  intros Hs Hsn.
  set (pre := firstn (m_start m) content).
  set (body := flat_map (fun block => rstrip (method_block block)
                                      ++ str "," ++ [NL]) blocks
               ++ method_block last ++ [NL]).
  set (line := str "xport const " ++ str service_name ++ str " = {").
  replace (header (rstrip pre) service_name
           ++ flat_map (fun block => rstrip (method_block block)
                                     ++ str "," ++ [NL]) blocks
           ++ method_block last ++ [NL] ++ str "};" ++ [NL])
    with (rstrip pre
          ++ NL :: NL :: str "export const "
          ++ (str service_name ++ str " = {" ++ [NL] ++ body
              ++ str "};" ++ [NL])).
  2:{ unfold header, body. rewrite <- !app_assoc. reflexivity. }
  unfold findall, finditer.
  replace (fst (scan export_pattern None _ 0)) with (@nil found);
    [reflexivity|symmetry].
  apply scan_nil_prefix.
  - intros u c v E.
    destruct (match_at export_pattern (last_of None u) _) as [mg|] eqn:Em;
      [exfalso|reflexivity].
    assert (ends_nonspace (c :: v)) as HX.
    { destruct (rstrip_ends pre) as [E0|He].
      - rewrite E0 in E. destruct u; discriminate E.
      - rewrite E in He. apply (ends_nonspace_tail u); [exact He|discriminate]. }
    destruct (rstrip_spaces pre) as (ws & Hpre & _).
    assert (is_Some (match_at export_pattern (last_of None u)
                       ((c :: v) ++ ws ++ skipn (m_start m) content)))
      as [mg' Hm'].
    { eapply export_match_crossing; [exact HX|].
      change ((c :: v) ++ ?x) with (c :: v ++ x). rewrite Em. eauto. }
    rewrite (search_none_before _ _ _ _ _ Hs u
               ((c :: v) ++ ws ++ skipn (m_start m) content)) in Hm'.
    + discriminate Hm'.
    + rewrite <- (firstn_skipn (m_start m) content) at 1. fold pre.
      rewrite Hpre, E, <- !app_assoc. reflexivity.
    + rewrite Nat.sub_0_r.
      assert (length (rstrip pre) <= length pre) as H1
        by (rewrite Hpre at 2; rewrite length_app; lia).
      assert (length pre <= m_start m) as H2
        by (unfold pre; rewrite length_firstn; lia).
      rewrite E, length_app in H1. cbn [length] in H1. lia.
  - apply scan_nil_cons; [apply export_nomatch_head, andb_false_r|].
    apply scan_nil_cons; [apply export_nomatch_head, andb_false_r|].
    change (str "export const " ++ ?x) with ("e"%char :: str "xport const " ++ x).
    apply scan_nil_cons;
      [apply (header_line_nomatch (Some NL))|].
    apply line_heads_ok_scan.
    replace (str "xport const "
             ++ str service_name ++ str " = {" ++ [NL] ++ body
             ++ str "};" ++ [NL])
      with (line ++ NL :: body ++ str "};" ++ [NL])
      by (unfold line; rewrite <- !app_assoc; reflexivity).
    rewrite line_heads_ok_app. apply andb_true_iff. split.
    + apply line_heads_ok_line; [|discriminate].
      unfold line. intros Hin. apply in_app_or in Hin as [Hin|Hin].
      * cbn in Hin. repeat (destruct Hin as [Hin|Hin]; [discriminate Hin|]).
        exact Hin.
      * apply in_app_or in Hin as [Hin|Hin]; [exact (Hsn Hin)|].
        cbn in Hin. repeat (destruct Hin as [Hin|Hin]; [discriminate Hin|]).
        exact Hin.
    + cbn [line_heads_ok]. rewrite andb_false_r. cbn [negb andb].
      destruct (line_heads_ok_body blocks last) as [Hb1 Hb2].
      fold body in Hb1, Hb2.
      rewrite line_heads_ok_app, Hb1, Hb2. reflexivity.
Qed.

(** *** The characters of the text written *)

Section Characters.
Variable P : ascii -> Prop.

Lemma firstn_all n (s : text) : Forall P s -> Forall P (firstn n s).
Proof.
  intros H. rewrite <- (firstn_skipn n s) in H.
  apply List.Forall_app in H as [H _]. exact H.
Qed.

Lemma skipn_all n (s : text) : Forall P s -> Forall P (skipn n s).
Proof.
  intros H. rewrite <- (firstn_skipn n s) in H.
  apply List.Forall_app in H as [_ H]. exact H.
Qed.

Lemma rstrip_all s : Forall P s -> Forall P (rstrip s).
Proof.
  intros H. destruct (rstrip_spaces s) as (ws & E & _). rewrite E in H.
  apply List.Forall_app in H as [H _]. exact H.
Qed.

Lemma join_nl_all ls : P NL -> Forall (Forall P) ls -> Forall P (join_nl ls).
Proof.
  intros HNL. induction ls as [|l ls IH]; intros H; [constructor|].
  apply List.Forall_cons_iff in H as [Hl H].
  destruct ls as [|l' ls]; [exact Hl|].
  change (join_nl (l :: l' :: ls)) with (l ++ NL :: join_nl (l' :: ls)).
  apply List.Forall_app. split; [exact Hl|].
  constructor; [exact HNL|apply IH; exact H].
Qed.

Lemma join_nl_pieces_all ls : Forall P (join_nl ls) -> Forall (Forall P) ls.
Proof.
  induction ls as [|l ls IH]; intros H; [constructor|].
  destruct ls as [|l' ls]; [repeat constructor; exact H|].
  change (join_nl (l :: l' :: ls)) with (l ++ NL :: join_nl (l' :: ls)) in H.
  apply List.Forall_app in H as [Hl H].
  apply List.Forall_cons_iff in H as [_ H].
  constructor; [exact Hl|apply IH; exact H].
Qed.

Lemma split_nl_all s : Forall P s -> Forall (Forall P) (split_nl s).
Proof.
  induction s as [|c s IH]; intros H; cbn [split_nl]; [repeat constructor|].
  apply List.Forall_cons_iff in H as [Hc H]. specialize (IH H).
  destruct (Ascii.eqb c NL); [constructor; [constructor|exact IH]|].
  destruct (split_nl s) as [|l ls]; [repeat constructor; exact Hc|].
  apply List.Forall_cons_iff in IH as [Hl Hls].
  constructor; [constructor; assumption|exact Hls].
Qed.

Lemma indent_block_all s :
  P " "%char -> P NL -> Forall P s -> Forall P (indent_block s).
Proof.
  intros Hsp HNL H. unfold indent_block. apply join_nl_all; [exact HNL|].
  apply List.Forall_forall. intros l Hin.
  apply List.in_map_iff in Hin as [l0 [<- Hin]].
  pose proof (split_nl_all s H) as Hall. rewrite List.Forall_forall in Hall.
  specialize (Hall l0 Hin). unfold indent_line.
  destruct (truthy (strip l0)); [|exact Hall].
  change (str "  " ++ l0) with (" "%char :: " "%char :: l0).
  constructor; [exact Hsp|]. constructor; [exact Hsp|exact Hall].
Qed.

Lemma group_all g :
  groups_all P g -> forall n t, group n g = Some t -> Forall P t.
Proof.
  unfold groups_all. induction g as [|[m t'] g IH]; intros H n t E;
    cbn [group] in E; [discriminate E|].
  apply List.Forall_cons_iff in H as [Ht H]. destruct (Nat.eqb n m).
  - injection E as <-. exact Ht.
  - eapply IH; eassumption.
Qed.

(** The continuation is only ever called on characters of the subject,
    with groups cut from the subject. *)
Lemma match_star_all {A : Type} p
    (k : option ascii -> text -> groups -> option A) s :
  forall q g a,
    Forall P s -> groups_all P g ->
    match_star p k q s g = Some a ->
    exists q' s' g', k q' s' g' = Some a /\ Forall P s' /\ groups_all P g'.
Proof.
  induction s as [|c s IH]; intros q g a Hs Hg H; cbn [match_star] in H.
  - eauto 7.
  - destruct (p c); [|eauto 7].
    destruct (match_star p k (Some c) s g) as [a'|] eqn:E; [|eauto 7].
    injection H as ->. apply List.Forall_cons_iff in Hs as [_ Hs].
    eapply IH; eassumption.
Qed.

Lemma rmatch_all r :
  forall {A : Type} (k : option ascii -> text -> groups -> option A) q s g a,
    Forall P s -> groups_all P g ->
    rmatch r k q s g = Some a ->
    exists q' s' g', k q' s' g' = Some a /\ Forall P s' /\ groups_all P g'.
Proof.
  induction r as [|l|p|p|r1 IH1 r2 IH2|r IH|n r IH|r IH];
    intros A k q s g a Hs Hg H; cbn [rmatch] in H.
  - destruct (at_bol q); [eauto 7|discriminate H].
  - apply match_lit_Some in H as (s' & -> & H).
    apply List.Forall_app in Hs as [_ Hs]. eauto 7.
  - eapply match_star_all; eassumption.
  - apply match_plus_Some in H as (c & u & v & -> & _ & _ & H).
    apply List.Forall_cons_iff in Hs as [_ Hs].
    apply List.Forall_app in Hs as [_ Hs]. eauto 7.
  - apply IH1 in H as (q1 & s1 & g1 & H & Hs1 & Hg1); [|assumption..].
    apply IH2 in H; assumption.
  - destruct (rmatch r k q s g) as [a'|] eqn:E; [|eauto 7].
    injection H as ->. eapply IH; eassumption.
  - apply IH in H as (q' & s' & g' & H & Hs' & Hg'); [|assumption..].
    cbv beta in H.
    exists q', s', ((n, firstn (length s - length s') s) :: g').
    split; [exact H|]. split; [exact Hs'|].
    unfold groups_all. constructor; [apply firstn_all; exact Hs|exact Hg'].
  - destruct (rmatch r _ q s g) as [g1|] eqn:E; [|discriminate H].
    apply IH in E as (q' & s' & g' & E & _ & Hg'); [|assumption..].
    injection E as ->. eauto 7.
Qed.

Lemma match_at_all r q s len g :
  Forall P s -> match_at r q s = Some (len, g) -> groups_all P g.
Proof.
  intros Hs H. unfold match_at in H.
  apply rmatch_all in H as (q' & s' & g' & H & _ & Hg');
    [|exact Hs|constructor].
  injection H as _ <-. exact Hg'.
Qed.

Lemma push_all c r :
  P c ->
  Forall (fun f => Forall P (gap f) /\ groups_all P (caps f)) (fst r)
  /\ Forall P (snd r) ->
  Forall (fun f => Forall P (gap f) /\ groups_all P (caps f)) (fst (push c r))
  /\ Forall P (snd (push c r)).
Proof.
  intros Hc [H1 H2]. destruct r as [[|f fs] t]; cbn [push fst snd] in *.
  - split; [constructor|]. constructor; assumption.
  - apply List.Forall_cons_iff in H1 as [[Hg Hcaps] H1].
    split; [|exact H2]. constructor; [|exact H1]. cbn [gap caps].
    split; [constructor; assumption|exact Hcaps].
Qed.

(** Everything a scan gives is made of characters of the subject. *)
Lemma scan_all r s :
  forall q skip,
    Forall P s ->
    Forall (fun f => Forall P (gap f) /\ groups_all P (caps f))
           (fst (scan r q s skip))
    /\ Forall P (snd (scan r q s skip)).
Proof.
  induction s as [|c s IH]; intros q skip Hs.
  - destruct skip; cbn [scan]; [|split; constructor].
    destruct (match_at r q []) as [[len g]|] eqn:E; cbn [fst snd];
      [|split; constructor].
    split; [|constructor]. constructor; [|constructor]. cbn [gap caps].
    split; [constructor|]. eapply match_at_all; eassumption.
  - pose proof Hs as Hcs. apply List.Forall_cons_iff in Hs as [Hc Hs].
    destruct skip as [|n]; cbn [scan]; [|apply IH; exact Hs].
    destruct (match_at r q (c :: s)) as [[len g]|] eqn:E.
    + cbn [fst snd].
      pose proof (match_at_all _ _ _ _ _ Hcs E) as Hg.
      destruct len as [|n].
      * destruct (push_all c _ Hc (IH (Some c) 0 Hs)) as [H1 H2].
        split; [|exact H2]. constructor; [|exact H1]. cbn [gap caps].
        split; [constructor|exact Hg].
      * destruct (IH (Some c) n Hs) as [H1 H2].
        split; [|exact H2]. constructor; [|exact H1]. cbn [gap caps].
        split; [constructor|exact Hg].
    + apply push_all; [exact Hc|apply IH; exact Hs].
Qed.

Lemma expand_all repl g :
  template_all P repl -> groups_all P g -> Forall P (expand repl g).
Proof.
  unfold expand, template_all.
  induction repl as [|it repl IH]; intros Hr Hg; cbn [flat_map];
    [constructor|].
  apply List.Forall_cons_iff in Hr as [Hit Hr].
  apply List.Forall_app. split; [|apply IH; assumption].
  destruct it as [t|n]; [exact Hit|].
  destruct (group n g) as [t|] eqn:E;
    [exact (group_all g Hg n t E)|simpl; constructor].
Qed.

(** [re.sub] puts no character into a text that is neither in the text
    nor in the template. *)
Lemma re_sub_all r repl s :
  template_all P repl -> Forall P s -> Forall P (re_sub r repl s).
Proof.
  intros Hr Hs. rewrite re_sub_scan. unfold replaced.
  destruct (scan_all r s None 0 Hs) as [H1 H2].
  apply List.Forall_app. split; [|exact H2].
  revert H1. generalize (fst (scan r None s 0)). intros fs H1.
  induction fs as [|f fs IH]; cbn [flat_map]; [constructor|].
  apply List.Forall_cons_iff in H1 as [[Hg Hc] H1].
  apply List.Forall_app. split; [|apply IH; exact H1].
  apply List.Forall_app. split; [exact Hg|apply expand_all; assumption].
Qed.

Lemma method_block_all block :
  P " "%char -> P "("%char -> P NL ->
  Forall P block -> Forall P (method_block block).
Proof.
  intros Hsp Hpar HNL H. unfold method_block.
  apply indent_block_all; try assumption.
  unfold function_to_method. apply re_sub_all.
  - unfold template_all, method_template.
    constructor; [exact I|]. constructor; [exact I|].
    constructor; [|constructor]. constructor; [exact Hpar|constructor].
  - unfold remove_export. apply re_sub_all; [constructor|exact H].
Qed.
End Characters.

(** The text written has no [\r] in it when the text read and the object
    name have none. *)
Lemma written_text_no_cr content m service_name blocks last :
  Forall (fun c => c <> CR) content ->
  Forall (fun c => c <> CR) (str service_name) ->
  join_nl (blocks ++ [last]) = skipn (m_start m) content ->
  Forall (fun c => c <> CR)
    (header (rstrip (firstn (m_start m) content)) service_name
     ++ flat_map (fun block => rstrip (method_block block)
                               ++ str "," ++ [NL]) blocks
     ++ method_block last ++ [NL]
     ++ str "};" ++ [NL]).
Proof.
  intros Hc Hsn Hj.
  assert (Forall (Forall (fun c => c <> CR)) (blocks ++ [last])) as Hb.
  { apply join_nl_pieces_all. rewrite Hj. apply skipn_all. exact Hc. }
  apply List.Forall_app in Hb as [Hbs Hl].
  apply List.Forall_cons_iff in Hl as [Hl _].
  assert (forall block,
             Forall (fun c => c <> CR) block ->
             Forall (fun c => c <> CR) (method_block block)) as Hmb
    by (intros block Hblock; apply method_block_all;
        [discriminate..|exact Hblock]).
  apply List.Forall_app. split.
  - unfold header. apply List.Forall_app. split.
    + apply List.Forall_app. split;
        [apply rstrip_all, firstn_all; exact Hc|repeat constructor; discriminate].
    + apply List.Forall_app. split; [repeat constructor; discriminate|].
      apply List.Forall_app. split; [exact Hsn|].
      repeat constructor; discriminate.
  - apply List.Forall_app. split.
    + clear Hj. induction blocks as [|block blocks IH]; cbn [flat_map];
        [constructor|].
      apply List.Forall_cons_iff in Hbs as [Hblock Hbs].
      apply List.Forall_app. split; [|apply IH; exact Hbs].
      apply List.Forall_app. split;
        [apply rstrip_all, Hmb; exact Hblock|repeat constructor; discriminate].
    + apply List.Forall_app. split; [apply Hmb; exact Hl|].
      repeat constructor; discriminate.
Qed.

Lemma not_in_cr t : ~ In CR t -> Forall (fun c => c <> CR) t.
Proof.
  intros H. apply List.Forall_forall. intros c Hin ->. contradiction.
Qed.

(** *** The second call *)

Lemma converted_file_has_no_export filepath service_name w content w1 :
  read_file filepath w = (w, Val content) ->
  ~ In NL (str service_name) -> ~ In CR (str service_name) ->
  convert_service_file filepath service_name w = (w1, Val true) ->
  exists new,
    read_file filepath w1 = (w1, Val new) /\ findall export_pattern new = [].
Proof.
  intros Hf Hsn Hcr H.
  assert (findall export_pattern content <> []) as Hne.
  { intros E. rewrite (convert_service_file_no_exports _ _ _ _ Hf E) in H.
    discriminate H. }
  destruct (convert_service_file_output _ _ _ _ _ _ Hf Hne H)
    as (m & blocks & last & Hs & _ & Hj & _ & _ & Hw).
  eexists. split.
  - rewrite (read_file_stored _ _ _ Hw). rewrite read_back; [reflexivity|].
    apply written_text_no_cr; [|apply not_in_cr; exact Hcr|exact Hj].
    apply read_file_Val in Hf as (stored & _ & ->).
    apply universal_newlines_no_cr.
  - exact (output_has_no_export content m service_name blocks last Hs Hsn).
Qed.

(** X8: a file the converter has rewritten reads, on either platform,
    as a text with no match of the export pattern (the object name
    being free of newlines and carriage returns), so a second call on
    it, with any object name, finds no exports: it returns [False] and
    leaves the file as the first call wrote it. *)
Theorem second_run_is_noop filepath service_name w content w1 :
  read_file filepath w = (w, Val content) ->
  ~ In NL (str service_name) -> ~ In CR (str service_name) ->
  convert_service_file filepath service_name w = (w1, Val true) ->
  exists new,
    read_file filepath w1 = (w1, Val new)
    /\ findall export_pattern new = []
    /\ forall service_name2,
         convert_service_file filepath service_name2 w1
         = (World (os w1) (files w1) (stdout w1 ++ [NoExportsFound filepath]),
            Val false).
Proof.
  intros Hf Hsn Hcr H.
  destruct (converted_file_has_no_export _ _ _ _ _ Hf Hsn Hcr H)
    as (new & Hw & Hnone).
  exists new. split; [exact Hw|]. split; [exact Hnone|].
  intros service_name2.
  apply convert_service_file_no_exports with (1 := Hw). exact Hnone.
Qed.

Lemma second_run_is_noop_witness :
  exists new,
    read_file "a.js"
      (fst (convert_service_file "a.js" "svc"
              (World Windows {["a.js"%string := two_async]} [])))
    = (fst (convert_service_file "a.js" "svc"
              (World Windows {["a.js"%string := two_async]} [])),
       Val new)
    /\ findall export_pattern new = []
    /\ forall service_name2,
         convert_service_file "a.js" service_name2
           (fst (convert_service_file "a.js" "svc"
                   (World Windows {["a.js"%string := two_async]} [])))
         = (World
              (os (fst (convert_service_file "a.js" "svc"
                          (World Windows {["a.js"%string := two_async]} []))))
              (files (fst (convert_service_file "a.js" "svc"
                             (World Windows {["a.js"%string := two_async]} []))))
              (stdout (fst (convert_service_file "a.js" "svc"
                              (World Windows {["a.js"%string := two_async]} [])))
               ++ [NoExportsFound "a.js"]),
            Val false).
Proof.
  refine (second_run_is_noop "a.js" "svc"
            (World Windows {["a.js"%string := two_async]} [])
            two_async _ _ _ _ _).
  - vm_compute. reflexivity.
  - cbn. intros H. repeat (destruct H as [H|H]; [discriminate H|]). exact H.
  - cbn. intros H. repeat (destruct H as [H|H]; [discriminate H|]). exact H.
  - vm_compute. reflexivity.
Defined.

(** ** A second run of the batch *)

(** The outcome of a call depends on what is stored in its file only. *)
Lemma convert_outcome_content filepath service_name w w' :
  files w !! filepath = files w' !! filepath ->
  snd (convert_service_file filepath service_name w)
  = snd (convert_service_file filepath service_name w').
Proof.
  intros E.
  destruct (convert_service_file_cases filepath w)
    as [Hf|[(content & Hf & Hs)|(content & m & Hf & Hs)]].
  - rewrite (convert_service_file_missing _ _ w Hf).
    rewrite E in Hf.
    rewrite (convert_service_file_missing _ _ w' Hf). reflexivity.
  - apply read_file_Val in Hf as (stored & Hf & ->).
    rewrite (convert_service_file_no_exports _ _ w _
               (read_file_stored _ _ _ Hf) Hs).
    rewrite E in Hf.
    rewrite (convert_service_file_no_exports _ _ w' _
               (read_file_stored _ _ _ Hf) Hs).
    reflexivity.
  - apply read_file_Val in Hf as (stored & Hf & ->).
    rewrite (convert_service_file_exports _ _ w _ _
               (read_file_stored _ _ _ Hf) Hs).
    rewrite E in Hf.
    rewrite (convert_service_file_exports _ _ w' _ _
               (read_file_stored _ _ _ Hf) Hs).
    destruct (convert_blocks _ _ _ _); reflexivity.
Qed.

Lemma path_join_inj dir name1 name2 :
  path_join dir name1 = path_join dir name2 -> name1 = name2.
Proof.
  unfold path_join. induction dir as [|c dir IH]; cbn; intros E.
  - injection E as E. exact E.
  - injection E as E. apply IH. exact E.
Qed.

(** An entry is settled in a world when a turn of the loop on it changes
    no file, in any world that has the same characters in its file. *)
Lemma for_each_settles services_dir entries :
  NoDup (map fst entries) ->
  Forall (fun entry => ~ In NL (str (snd entry)) /\ ~ In CR (str (snd entry)))
         entries ->
  forall w,
    Forall (fun entry =>
              forall w',
                files w' !! path_join services_dir (fst entry)
                = files (fst (for_each services_dir entries w))
                    !! path_join services_dir (fst entry) ->
                files (fst (convert_entry services_dir entry w')) = files w')
           entries.
Proof.
  induction entries as [|[filename service_name] entries IH];
    intros Hnd Hsn w; [constructor|].
  apply NoDup_cons in Hnd as [Hnotin Hnd].
  apply List.Forall_cons_iff in Hsn as [[Hsn1 Hcr1] Hsn].
  cbn [snd] in Hsn1, Hcr1.
  rewrite for_each_cons.
  destruct (convert_entry services_dir (filename, service_name) w)
    as [w1 o1] eqn:Hstep.
  assert (o1 = Val tt) as ->.
  { destruct (convert_entry_closing services_dir filename service_name w)
      as (_ & _ & _ & _ & _ & Ho). rewrite Hstep in Ho. exact Ho. }
  constructor; [|apply IH; assumption].
  cbn [fst]. intros w' Hw'.
  rewrite for_each_only_listed in Hw'.
  2:{ apply List.Forall_forall. intros [f s] Hin Heq. cbn [fst] in Heq.
      apply path_join_inj in Heq. subst f. apply Hnotin.
      apply list_elem_of_In. apply (List.in_map fst) in Hin. exact Hin. }
  rewrite convert_entry_run in Hstep |- *.
  set (p := path_join services_dir filename) in *.
  destruct (files w !! p) as [stored|] eqn:Hf.
  - destruct (convert_service_file p service_name w) as [w0 o] eqn:Hc.
    assert (files w1 = files w0) as Hw1
      by (destruct o; injection Hstep as <-; reflexivity).
    rewrite Hw1 in Hw'.
    destruct (files w' !! p) as [stored'|] eqn:Hf'; [|reflexivity].
    destruct (convert_service_file p service_name w') as [w0' o'] eqn:Hc'.
    assert (o' <> Val true -> files w0' = files w') as Hsame'.
    { intros Ho'.
      destruct (convert_service_file_files _ _ _ _ _ Hc') as [E|[E _]];
        [exact E|contradiction]. }
    assert (o <> Val true -> files w0' = files w') as Hother.
    { intros Ho.
      assert (files w0 = files w) as Hsame.
      { destruct (convert_service_file_files _ _ _ _ _ Hc) as [E|[E _]];
          [exact E|contradiction]. }
      apply Hsame'.
      pose proof (convert_outcome_content p service_name w' w) as Hout.
      rewrite Hc, Hc' in Hout. cbn [snd] in Hout.
      rewrite Hout; [exact Ho|]. rewrite Hf', Hw', Hsame. reflexivity. }
    assert (files w0' = files w') as Hkeep.
    { destruct o as [[|]|e]; [|apply Hother; discriminate..].
      destruct (converted_file_has_no_export p service_name w _ w0
                  (read_file_stored _ _ _ Hf) Hsn1 Hcr1 Hc)
        as (new & Hnew & Hnone).
      apply read_file_Val in Hnew as (stored0 & Hst & ->).
      rewrite Hst in Hw'. injection Hw' as ->.
      rewrite (convert_service_file_no_exports _ _ _ _
                 (read_file_stored _ _ _ Hf') Hnone) in Hc'.
      injection Hc' as <- _. reflexivity. }
    destruct o'; cbn [fst files]; exact Hkeep.
  - injection Hstep as <-. cbn [files] in Hw'. rewrite Hf in Hw'.
    rewrite Hw'. reflexivity.
Qed.

Lemma for_each_settled services_dir entries (fs : gmap string text) :
  Forall (fun entry =>
            forall w',
              files w' !! path_join services_dir (fst entry)
              = fs !! path_join services_dir (fst entry) ->
              files (fst (convert_entry services_dir entry w')) = files w')
         entries ->
  forall w, files w = fs ->
            files (fst (for_each services_dir entries w)) = fs.
Proof.
  induction entries as [|[filename service_name] entries IH];
    intros Hall w Hw; [exact Hw|].
  apply List.Forall_cons_iff in Hall as [Hone Hall].
  rewrite for_each_cons.
  specialize (Hone w). rewrite Hw in Hone. specialize (Hone eq_refl).
  destruct (convert_entry_closing services_dir filename service_name w)
    as (_ & _ & _ & _ & _ & Ho).
  destruct (convert_entry services_dir (filename, service_name) w)
    as [w1 o1].
  cbn [fst snd] in Hone, Ho. subst o1.
  apply IH; [exact Hall|]. rewrite Hone. reflexivity.
Qed.

Lemma services_to_convert_distinct : NoDup (map fst services_to_convert).
Proof.
  apply (bool_decide_unpack (NoDup (map fst services_to_convert))).
  vm_compute. exact I.
Qed.

Lemma services_to_convert_names :
  Forall (fun entry => ~ In NL (str (snd entry)) /\ ~ In CR (str (snd entry)))
         services_to_convert.
Proof.
  repeat constructor; cbn;
    intros H; repeat (destruct H as [H|H]; [discriminate H|]); exact H.
Qed.

(** X9: running [main] a second time changes no file: every file is as
    the first run left it. *)
Theorem main_second_run_keeps_files script_dir w :
  files (fst (main script_dir (fst (main script_dir w))))
  = files (fst (main script_dir w)).
Proof.
  unfold main. apply for_each_settled; [|reflexivity].
  apply for_each_settles.
  - exact services_to_convert_distinct.
  - exact services_to_convert_names.
Qed.
